(** * The ssl_exporter collector of the agent: [Exporter.Collect]

    A shallow embedding of package [ssl_exporter] (the multi-target
    collector: tables [labelOrder] and [descs], [NewSSLExporter],
    [Exporter.Describe], [Exporter.Collect]) and what it uses of the
    Prometheus client library and of Go's [sort.Slice], and of the usage
    reporter of package [usagestats], followed by their properties. *)

From Stdlib Require Import Floats.PrimFloat ZArith Ascii String DecimalString.
From stdpp Require Import gmap strings list fin_maps sorting.

Local Open Scope string_scope.
Local Open Scope list_scope.
Local Open Scope nat_scope.

(** ** Data of the Prometheus client model (package [dto]) *)

(** [dto.LabelPair]: [Name] and [Value]. *)
Record dto_LabelPair := { lp_Name : string; lp_Value : string }.

(** [dto.Metric]: [Label] and the [Gauge] pointer, which is nil ([None]) on
    a metric of another type (counter, summary, histogram, untyped); a gauge
    carries its [Value]. *)
Record dto_Metric := { m_Label : list dto_LabelPair; m_Gauge : option float }.

(** [dto.MetricFamily]: [Name] and [Metric]. *)
Record dto_MetricFamily := { mf_Name : string; mf_Metric : list dto_Metric }.

(** ** Errors and the logging side channel *)

Inductive error :=
| errInconsistentCardinality (expected got : nat) (vals : list string)
| errInvalidMetricName (fqName : string)
| errCollectedBefore (fqName : string)
| errProbe (msg : string).

(** One entry per [level.Error(logger).Log("msg", ...)] of [Collect]. *)
Inductive LogEntry :=
| LogModuleParameterMustBeSet          (* "Module parameter must be set" *)
| LogUnknownModule (module : string)   (* "Unknown module '%s'" *)
| LogUnknownProber (prober : string)   (* "Unknown prober %q" *)
| LogUnknownMetric (name : string)     (* "Unknown metric %q" *)
| LogError (err : error).              (* Log("msg", err) *)

(** ** Descriptors and constant metrics (package [prometheus]) *)

(** [prometheus.Desc], as [NewDesc fqName help variableLabels nil] fills it. *)
Record prometheus_Desc :=
  NewDesc { fqName : string; help : string; variableLabels : list string }.

Inductive ValueType := CounterValue | GaugeValue | UntypedValue.

(** What [NewConstMetric] returns: the descriptor, the value and the label
    values, one per variable label of the descriptor, in its order. *)
Record prometheus_Metric := {
  cm_desc : prometheus_Desc;
  cm_valType : ValueType;
  cm_val : float;
  cm_labelValues : list string
}.

(** [prometheus.BuildFQName]. *)
Definition BuildFQName (namespace subsystem name : string) : string :=
  if decide (name = "") then ""
  else if decide (namespace ≠ "" ∧ subsystem ≠ "")
       then namespace +:+ "_" +:+ subsystem +:+ "_" +:+ name
  else if decide (namespace ≠ "") then namespace +:+ "_" +:+ name
  else if decide (subsystem ≠ "") then subsystem +:+ "_" +:+ name
  else name.

(** [prometheus.NewConstMetric]: it fails when the number of label values is
    not the number of the descriptor's variable labels. (Its other checks,
    a descriptor built with an error and a label value that is not UTF-8,
    cannot fail here: the descriptors of [descs] are valid and the values
    come out of a registry, which holds validated metrics only.) *)
Definition NewConstMetric (desc : prometheus_Desc) (valueType : ValueType)
    (value : float) (labelValues : list string) : error + prometheus_Metric :=
  if decide (length labelValues = length (variableLabels desc))
  then inr {| cm_desc := desc; cm_valType := valueType; cm_val := value;
              cm_labelValues := labelValues |}
  else inl (errInconsistentCardinality (length (variableLabels desc))
              (length labelValues) labelValues).

(** ** The tables of the package *)

Definition namespace : string := "ssl".

(** [labelOrder]: the precedence rank of a label name. *)
Definition labelOrder : gmap string Z :=
  list_to_map [
    ("prober", 0%Z); ("version", 0%Z); ("chain_no", 0%Z); ("file", 0%Z);
    ("namespace", 0%Z); ("kubeconfig", 0%Z);
    ("secret", 1%Z); ("name", 1%Z);
    ("key", 2%Z); ("type", 2%Z);
    ("serial_no", 3%Z); ("issuer_cn", 4%Z); ("cn", 5%Z); ("dnsnames", 6%Z);
    ("ips", 7%Z); ("emails", 8%Z); ("ou", 9%Z) ].

(** The index expression [labelOrder[name]] of Go: the zero value of [int]
    for a key the map does not hold. *)
Definition labelOrder_at (name : string) : Z := default 0%Z (labelOrder !! name).

Definition certLabels : list string :=
  ["serial_no"; "issuer_cn"; "cn"; "dnsnames"; "ips"; "emails"; "ou"].

Definition descsList : list (string * prometheus_Desc) := [
  ("ssl_exporter_probe_success",
   NewDesc (BuildFQName namespace "" "probe_success")
     "If the probe was a success" []);
  ("ssl_exporter_prober",
   NewDesc (BuildFQName namespace "" "prober")
     "The prober used by the exporter to connect to the target" ["prober"]);
  ("ssl_tls_version_info",
   NewDesc (BuildFQName namespace "" "tls_version_info")
     "The TLS version used" ["version"]);
  ("ssl_cert_not_after",
   NewDesc (BuildFQName namespace "" "cert_not_after")
     "NotAfter expressed as a Unix Epoch Time" certLabels);
  ("ssl_cert_not_before",
   NewDesc (BuildFQName namespace "" "cert_not_before")
     "NotBefore expressed as a Unix Epoch Time" certLabels);
  ("ssl_verified_cert_not_after",
   NewDesc (BuildFQName namespace "" "verified_cert_not_after")
     "NotAfter expressed as a Unix Epoch Time" ("chain_no" :: certLabels));
  ("ssl_verified_cert_not_before",
   NewDesc (BuildFQName namespace "" "verified_cert_not_before")
     "NotBefore expressed as a Unix Epoch Time" []);
  ("ssl_ocsp_response_stapled",
   NewDesc (BuildFQName namespace "" "ocsp_response_stapled")
     "If the connection state contains a stapled OCSP response" []);
  ("ssl_ocsp_response_status",
   NewDesc (BuildFQName namespace "" "ocsp_response_status")
     "The status in the OCSP response 0=Good 1=Revoked 2=Unknown" []);
  ("ssl_ocsp_response_produced_at",
   NewDesc (BuildFQName namespace "" "ocsp_response_produced_at")
     "The producedAt value in the OCSP response, expressed as a Unix Epoch Time" []);
  ("ssl_ocsp_response_this_update",
   NewDesc (BuildFQName namespace "" "ocsp_response_this_update")
     "The thisUpdate value in the OCSP response, expressed as a Unix Epoch Time" []);
  ("ssl_ocsp_response_next_update",
   NewDesc (BuildFQName namespace "" "ocsp_response_next_update")
     "The nextUpdate value in the OCSP response, expressed as a Unix Epoch Time" []);
  ("ssl_ocsp_response_revoked_at",
   NewDesc (BuildFQName namespace "" "ocsp_response_revoked_at")
     "The revocationTime value in the OCSP response, expressed as a Unix Epoch Time" []);
  ("ssl_file_cert_not_after",
   NewDesc (BuildFQName namespace "" "file_cert_not_after")
     "NotAfter expressed as a Unix Epoch Time for a certificate found in a file"
     ("file" :: certLabels));
  ("ssl_file_cert_not_before",
   NewDesc (BuildFQName namespace "" "file_cert_not_before")
     "NotBefore expressed as a Unix Epoch Time for a certificate found in a file"
     ("file" :: certLabels));
  ("ssl_kubernetes_cert_not_after",
   NewDesc (BuildFQName namespace "" "kubernetes_cert_not_after")
     "NotAfter expressed as a Unix Epoch Time for a certificate found in a kubernetes secret"
     ("namespace" :: "secret" :: "key" :: certLabels));
  ("ssl_kubernetes_cert_not_before",
   NewDesc (BuildFQName namespace "" "kubernetes_cert_not_before")
     "NotBefore expressed as a Unix Epoch Time for a certificate found in a kubernetes secret"
     ("namespace" :: "secret" :: "key" :: certLabels));
  ("ssl_kubeconfig_cert_not_after",
   NewDesc (BuildFQName namespace "kubeconfig" "cert_not_after")
     "NotAfter expressed as a Unix Epoch Time for a certificate found in a kubeconfig"
     ("kubeconfig" :: "name" :: "type" :: certLabels));
  ("ssl_kubeconfig_cert_not_before",
   NewDesc (BuildFQName namespace "kubeconfig" "cert_not_before")
     "NotBefore expressed as a Unix Epoch Time for a certificate found in a kubeconfig"
     ("kubeconfig" :: "name" :: "type" :: certLabels)) ].

(** [descs]: the descriptor registry, keyed by raw family name. *)
Definition descs : gmap string prometheus_Desc := list_to_map descsList.

(** ** [sort.Slice]

    The repository is built with Go 1.18 (its CI installs go1.18). There
    [sort.Slice x less] runs [quickSort_func data 0 (len x) _], which for
    [b-a <= 12] is

      if b-a > 1 {
        for i := a + 6; i < b; i++ {      // ShellSort pass with gap 6
          if data.Less(i, i-6) { data.Swap(i, i-6) }
        }
        insertionSort_func(data, a, b)
      }

    with

      for i := a + 1; i < b; i++ {
        for j := i; j > a && data.Less(j, j-1); j-- { data.Swap(j, j-1) }
      }

    The slice is a list updated by index; [a] is 0 and [b] the length. *)
Section sort.
Context {A : Type}.
Variable less : A → A → bool.

Definition Less (data : list A) (i j : nat) : bool :=
  match data !! i, data !! j with
  | Some x, Some y => less x y
  | _, _ => false
  end.

Definition Swap (data : list A) (i j : nat) : list A :=
  match data !! i, data !! j with
  | Some x, Some y => <[i := y]> (<[j := x]> data)
  | _, _ => data
  end.

(** The inner loop of [insertionSort_func], entered with [j]. *)
Fixpoint sinkDown (data : list A) (j : nat) : list A :=
  match j with
  | 0 => data
  | S j' => if Less data j j' then sinkDown (Swap data j j') j' else data
  end.

Definition insertionSort_func (data : list A) : list A :=
  foldl sinkDown data (seq 1 (length data - 1)).

Definition shellPass (data : list A) : list A :=
  foldl (λ d i, if Less d i (i - 6) then Swap d i (i - 6) else d)
        data (seq 6 (length data - 6)).

End sort.

(** The inner loop of [insertionSort_func] as a function: [x] moves left
    past the elements it is less than; the part of the slice before [x] is
    given in reverse. *)
Fixpoint moveLeft {A : Type} (less : A → A → bool) (x : A) (rprefix : list A)
    : list A :=
  match rprefix with
  | [] => [x]
  | y :: r => if less x y then y :: moveLeft less x r else x :: rprefix
  end.

(** ** The exporter *)

(** [ssl_config.Module]: the prober kind, and the parameters the prober
    reads (opaque here). *)
Record ssl_config_Module := { Prober : string; ModuleParams : string }.

(** [ssl_config.Config]. *)
Record ssl_config_Config := {
  DefaultModule : string;
  Modules : gmap string ssl_config_Module
}.

(** [SSLTarget]: the address and the requested module name. *)
Record SSLTarget := { target_Target : string; target_Module : string }.

(** A collector held by a registry. The exporter's two gauges are
    registered by pointer: a registry that holds them reads their value in
    the exporter when it gathers. A collector registered by a prober is kept
    as the family it gathers to. *)
Inductive Collector :=
| TheProbeSuccess
| TheProberType
| Registered (mf : dto_MetricFamily).

(** [prometheus.Registry]. *)
Record prometheus_Registry := { collectors : list Collector }.

Definition NewRegistry : prometheus_Registry := {| collectors := [] |}.

Record Logger := { logger_name : string }.

Record Options := {
  Namespace : string;
  MetricsPath : string;
  ProbePath : string;
  Registry : option prometheus_Registry;    (* a pointer, possibly nil *)
  SSLTargets : list SSLTarget;
  SSLConfig : ssl_config_Config;
  log : Logger
}.

(** [prometheus.Gauge]: its fully-qualified name and its current value. *)
Record prometheus_Gauge := { gauge_Name : string; gauge_value : float }.

(** [prometheus.GaugeVec] with one variable label: its name, the label's
    name, and the children created so far, by label value. *)
Record prometheus_GaugeVec := {
  vec_Name : string;
  vec_label : string;
  vec_children : gmap string float
}.

Record Exporter := {
  probeSuccess : prometheus_Gauge;
  proberType : prometheus_GaugeVec;
  options : Options;
  exporter_namespace : string
}.

Definition NewSSLExporter (opts : Options) : Exporter := {|
  options := opts;
  exporter_namespace := Namespace opts;
  probeSuccess := {| gauge_Name := BuildFQName (Namespace opts) "" "probe_success";
                     gauge_value := 0%float |};
  proberType := {| vec_Name := BuildFQName (Namespace opts) "" "prober";
                   vec_label := "prober";
                   vec_children := ∅ |}
|}.

(** [g.Set(v)]. *)
Definition Gauge_Set (g : prometheus_Gauge) (v : float) : prometheus_Gauge :=
  {| gauge_Name := gauge_Name g; gauge_value := v |}.

(** [vec.WithLabelValues(lv).Set(v)]: the child for [lv] is created when the
    vector does not hold it yet, and set. *)
Definition GaugeVec_WithLabelValues_Set (vec : prometheus_GaugeVec)
    (lv : string) (v : float) : prometheus_GaugeVec :=
  {| vec_Name := vec_Name vec; vec_label := vec_label vec;
     vec_children := <[lv := v]> (vec_children vec) |}.

(** [model.IsValidMetricName]: [[a-zA-Z_:][a-zA-Z0-9_:]*]. *)
Definition isMetricNameStart (c : ascii) : bool :=
  let n := nat_of_ascii c in
  (Nat.leb 65 n && Nat.leb n 90) || (Nat.leb 97 n && Nat.leb n 122)
  || Nat.eqb n 95 || Nat.eqb n 58.

Definition isMetricNameChar (c : ascii) : bool :=
  isMetricNameStart c || (Nat.leb 48 (nat_of_ascii c) && Nat.leb (nat_of_ascii c) 57).

Definition IsValidMetricName (s : string) : bool :=
  match s with
  | EmptyString => false
  | String c s' => isMetricNameStart c && forallb isMetricNameChar (list_ascii_of_string s')
  end.

(** The order of Go's [<] on strings, bytewise. *)
Definition string_le (s1 s2 : string) : Prop := String.leb s1 s2 = true.
#[global] Instance string_le_dec s1 s2 : Decision (string_le s1 s2).
Proof. unfold string_le. apply _. Defined.

(** What a collector sends when the registry gathers: the gauge its one
    metric, the vector one metric per child, sorted by label value. *)
Definition collect (e : Exporter) (c : Collector) : list dto_MetricFamily :=
  match c with
  | TheProbeSuccess =>
      [ {| mf_Name := gauge_Name (probeSuccess e);
           mf_Metric := [ {| m_Label := [];
                             m_Gauge := Some (gauge_value (probeSuccess e)) |} ] |} ]
  | TheProberType =>
      let children :=
        merge_sort (λ a b, string_le a.1 b.1)
                   (map_to_list (vec_children (proberType e))) in
      match children with
      | [] => []
      | _ => [ {| mf_Name := vec_Name (proberType e);
                  mf_Metric :=
                    map (λ kv, {| m_Label := [ {| lp_Name := vec_label (proberType e);
                                                  lp_Value := kv.1 |} ];
                                  m_Gauge := Some kv.2 |}) children |} ]
      end
  | Registered mf => [mf]
  end.

(** [Registry.Gather]: the families of the registry's collectors, sorted by
    name. A registry holds one family per fully-qualified name: collectors
    that send the same name make it fail. *)
Definition Gather (e : Exporter) (r : prometheus_Registry)
    : error + list dto_MetricFamily :=
  let fams := flat_map (collect e) (collectors r) in
  match filter (λ n, 1 < length (filter (λ mf, mf_Name mf = n) fams))
               (map mf_Name fams) with
  | [] => inr (merge_sort (λ a b, string_le (mf_Name a) (mf_Name b)) fams)
  | n :: _ => inl (errCollectedBefore n)
  end.

(** What a prober did when it returns: the error it returns, if any, and the
    collectors it registered in the registry it was given, each by the
    family it gathers to: [Gather] returns the label pairs of a metric in
    the order of their names, and a family is given here as gathered (the
    families of the examples have their labels in that order). A prober
    holds no pointer to the exporter's two gauges, and cannot unregister or
    set them. *)
Record ProbeResult := {
  probe_err : option error;
  probe_registered : list dto_MetricFamily
}.

(** A probe function, applied to [target.Target] and the module. *)
Definition ProbeFn : Type := string → ssl_config_Module → ProbeResult.

(** The state [Collect] works on: the exporter, what was sent on the
    channel [ch], what was logged. *)
Record World := {
  exporter : Exporter;
  ch : list prometheus_Metric;
  logged : list LogEntry
}.

(** How a piece of [Collect] ends: it completes, or it panics (a nil
    pointer dereference, a [MustRegister] that fails). *)
Inductive Outcome :=
| Returns (w : World)
| Panics (w : World).

Definition world_of (o : Outcome) : World :=
  match o with Returns w => w | Panics w => w end.

Definition Log (w : World) (entry : LogEntry) : World :=
  {| exporter := exporter w; ch := ch w; logged := logged w ++ [entry] |}.

Definition Send (w : World) (metric : prometheus_Metric) : World :=
  {| exporter := exporter w; ch := ch w ++ [metric]; logged := logged w |}.

Definition with_exporter (w : World) (e : Exporter) : World :=
  {| exporter := e; ch := ch w; logged := logged w |}.

(** The state after more metrics were sent and more entries logged. *)
Definition extend (w : World) (metrics : list prometheus_Metric)
    (entries : list LogEntry) : World :=
  {| exporter := exporter w; ch := ch w ++ metrics; logged := logged w ++ entries |}.

Definition ends (panics : bool) : World → Outcome :=
  if panics then Panics else Returns.

(** A [for ... range] loop whose body may panic. *)
Fixpoint forEach {X : Type} (body : World → X → Outcome) (w : World)
    (xs : list X) : Outcome :=
  match xs with
  | [] => Returns w
  | x :: xs' =>
      match body w x with
      | Returns w' => forEach body w' xs'
      | Panics w' => Panics w'
      end
  end.

Definition set_Registry (e : Exporter) (r : prometheus_Registry) : Exporter :=
  {| probeSuccess := probeSuccess e; proberType := proberType e;
     exporter_namespace := exporter_namespace e;
     options := {| Namespace := Namespace (options e);
                   MetricsPath := MetricsPath (options e);
                   ProbePath := ProbePath (options e);
                   Registry := Some r;
                   SSLTargets := SSLTargets (options e);
                   SSLConfig := SSLConfig (options e);
                   log := log (options e) |} |}.

Definition set_probeSuccess (e : Exporter) (v : float) : Exporter :=
  {| probeSuccess := Gauge_Set (probeSuccess e) v; proberType := proberType e;
     exporter_namespace := exporter_namespace e; options := options e |}.

Definition set_proberType (e : Exporter) (lv : string) (v : float) : Exporter :=
  {| probeSuccess := probeSuccess e;
     proberType := GaugeVec_WithLabelValues_Set (proberType e) lv v;
     exporter_namespace := exporter_namespace e; options := options e |}.

(** [Registry.MustRegister(e.probeSuccess, e.proberType)] on a new registry
    panics when a name is not a valid metric name, or when the two collectors
    have one name. *)
Definition MustRegister_panics (e : Exporter) : bool :=
  negb (IsValidMetricName (gauge_Name (probeSuccess e)))
  || negb (IsValidMetricName (vec_Name (proberType e)))
  || bool_decide (gauge_Name (probeSuccess e) = vec_Name (proberType e)).

(** The registry a panicking [MustRegister] leaves: it registers its
    arguments one by one, and panics at the first that fails. *)
Definition MustRegister_partial (e : Exporter) : prometheus_Registry :=
  if IsValidMetricName (gauge_Name (probeSuccess e))
  then {| collectors := [TheProbeSuccess] |} else NewRegistry.

(** The less function of [Collect]: [labelOrder[*m.Label[i].Name] <
    labelOrder[*m.Label[j].Name]]. *)
Definition labelLess (li lj : dto_LabelPair) : bool :=
  bool_decide (labelOrder_at (lp_Name li) < labelOrder_at (lp_Name lj))%Z.

Section ssl_exporter.

(** Go's [quickSort_func] on more than 12 elements (pivoting, with heap sort
    below a depth): a parameter. No descriptor has more than 10 labels. *)
Variable quickSort_func : ∀ A : Type, (A → A → bool) → list A → list A.

(** [prober.Probers]: the probe function of each prober kind. *)
Variable Probers : gmap string ProbeFn.

Definition sort_Slice {A : Type} (x : list A) (less : A → A → bool) : list A :=
  if decide (12 < length x) then quickSort_func A less x
  else if decide (1 < length x) then insertionSort_func less (shellPass less x)
  else x.

(** Lines 233-259 of [Collect]: one metric [m] of the family [mf]. *)
Definition remapMetric (mf : dto_MetricFamily) (w : World) (m : dto_Metric)
    : Outcome :=
  match descs !! mf_Name mf with
  | None => Returns (Log w (LogUnknownMetric (mf_Name mf)))
  | Some desc =>
      let Label := sort_Slice (m_Label m) labelLess in
      let labelValues := map lp_Value Label in
      match m_Gauge m with
      | None => Panics w
      | Some value =>
          match NewConstMetric desc GaugeValue value labelValues with
          | inl err => Returns (Log w (LogError err))
          | inr metric => Returns (Send w metric)
          end
      end
  end.

(** Lines 232-260: the two loops over the gathered families. *)
Definition remapFamily (w : World) (mf : dto_MetricFamily) : Outcome :=
  forEach (remapMetric mf) w (mf_Metric mf).

Definition remapFamilies (w : World) (metricFams : list dto_MetricFamily)
    : Outcome :=
  forEach remapFamily w metricFams.

(** Lines 213-224: the sub-registry, the probe and the success gauge. The
    result is the exporter, the registry after the probe and the error. *)
Definition probeTarget (e : Exporter) (target : SSLTarget)
    (module : ssl_config_Module) (probeFunc : ProbeFn)
    : Exporter * prometheus_Registry * option error :=
  let registry := {| collectors := collectors NewRegistry
                                   ++ [TheProbeSuccess; TheProberType] |} in
  let e := set_proberType (set_Registry e registry) (Prober module) 1%float in
  let res := probeFunc (target_Target target) module in
  let registry := {| collectors := collectors registry
                                   ++ map Registered (probe_registered res) |} in
  let e := set_Registry e registry in
  match probe_err res with
  | Some err => (set_probeSuccess e 0%float, registry, Some err)
  | None => (set_probeSuccess e 1%float, registry, None)
  end.

(** Lines 192-211: the module and the probe function of a target, or what
    is logged before [continue]. *)
Definition resolve (cfg : ssl_config_Config) (target : SSLTarget)
    : LogEntry + (ssl_config_Module * ProbeFn) :=
  let moduleName :=
    if decide (target_Module target ≠ "") then DefaultModule cfg else "" in
  if decide (target_Module target ≠ "" ∧ moduleName = "")
  then inl LogModuleParameterMustBeSet
  else
    match Modules cfg !! target_Module target with
    | None => inl (LogUnknownModule (target_Module target))
    | Some module =>
        match Probers !! Prober module with
        | None => inl (LogUnknownProber (Prober module))
        | Some probeFunc => inr (module, probeFunc)
        end
    end.

(** The body of the loop over the targets (lines 190-260). *)
Definition scrapeTarget (w : World) (target : SSLTarget) : Outcome :=
  let e := exporter w in
  match resolve (SSLConfig (options e)) target with
  | inl entry => Returns (Log w entry)
  | inr (module, probeFunc) =>
      if MustRegister_panics e
      then Panics (with_exporter w (set_Registry e (MustRegister_partial e)))
      else
        let '(e, registry, err) := probeTarget e target module probeFunc in
        let w := with_exporter w e in
        let w := match err with
                 | Some err => Log w (LogError err)
                 | None => w
                 end in
        match Gather e registry with
        | inl err => Returns (Log w (LogError err))
        | inr metricFams => remapFamilies w metricFams
        end
  end.

(** [Exporter.Collect]: the loop over [e.options.SSLTargets], on an empty
    channel. (The mutex it holds serializes calls; one call is modelled.) *)
Definition Collect (e : Exporter) : Outcome :=
  forEach scrapeTarget {| exporter := e; ch := []; logged := [] |}
          (SSLTargets (options e)).

(** The canonical metric sent for the raw metric [m] of the family [mf],
    when one is sent (used to state what a run of the loops sends). *)
Definition canonical (mf : dto_MetricFamily) (m : dto_Metric)
    : option prometheus_Metric :=
  match descs !! mf_Name mf, m_Gauge m with
  | Some desc, Some value =>
      match NewConstMetric desc GaugeValue value
              (map lp_Value (sort_Slice (m_Label m) labelLess)) with
      | inr metric => Some metric
      | inl _ => None
      end
  | _, _ => None
  end.

(** The sub-registry [Collect] leaves in [e.options.Registry] for a target
    that resolved to [module] and [probeFunc]. *)
Definition subRegistry (target : SSLTarget) (module : ssl_config_Module)
    (probeFunc : ProbeFn) : prometheus_Registry :=
  {| collectors :=
       [TheProbeSuccess; TheProberType]
       ++ map Registered (probe_registered (probeFunc (target_Target target) module)) |}.


End ssl_exporter.


Definition is_panic (o : Outcome) : bool :=
  match o with Panics _ => true | Returns _ => false end.

(** The canonical probe-success metric, and the canonical prober-identity
    metric of the prober kind [kind]. *)
Definition is_probe_success (metric : prometheus_Metric) : Prop :=
  fqName (cm_desc metric) = "ssl_probe_success".

Definition is_prober_identity (kind : string) (metric : prometheus_Metric) : Prop :=
  fqName (cm_desc metric) = "ssl_prober" ∧ cm_labelValues metric = [kind].

#[global] Instance is_probe_success_dec metric : Decision (is_probe_success metric).
Proof. unfold is_probe_success. apply _. Defined.

#[global] Instance is_prober_identity_dec kind metric :
  Decision (is_prober_identity kind metric).
Proof. unfold is_prober_identity. apply _. Defined.

(** ** A configuration to run the collector on *)

Definition label (name value : string) : dto_LabelPair :=
  {| lp_Name := name; lp_Value := value |}.

(** The labels of a certificate metric, in the order a registry gathers
    them (by name). *)
Definition example_certLabels : list dto_LabelPair :=
  [ label "cn" "example.com"; label "dnsnames" ",example.com,";
    label "emails" ""; label "ips" ""; label "issuer_cn" "Example CA";
    label "ou" ""; label "serial_no" "42" ].

Definition gaugeFamily (name : string) (labels : list dto_LabelPair)
    (value : float) : dto_MetricFamily :=
  {| mf_Name := name;
     mf_Metric := [ {| m_Label := labels; m_Gauge := Some value |} ] |}.

(** A prober that succeeds and registers the not-after gauge of a
    certificate valid until 2025-01-01. *)
Definition probe_ok : ProbeFn := λ _ _,
  {| probe_err := None;
     probe_registered :=
       [ gaugeFamily "ssl_cert_not_after" example_certLabels 1735689600%float ] |}.

(** A prober that fails and registers nothing. *)
Definition probe_failing : ProbeFn := λ _ _,
  {| probe_err := Some (errProbe "dial tcp: connection refused");
     probe_registered := [] |}.

(** A prober that registers a family the descriptor registry does not
    hold, next to one it holds. *)
Definition probe_unexpected : ProbeFn := λ _ _,
  {| probe_err := None;
     probe_registered :=
       [ gaugeFamily "ssl_unexpected_metric" [] 1%float;
         gaugeFamily "ssl_cert_not_after" example_certLabels 1735689600%float ] |}.

(** A prober that registers, under a name of the descriptor registry, a
    metric that is not a gauge (a counter: its [Gauge] is nil). *)
Definition probe_counter : ProbeFn := λ _ _,
  {| probe_err := None;
     probe_registered :=
       [ {| mf_Name := "ssl_cert_not_after";
            mf_Metric := [ {| m_Label := example_certLabels; m_Gauge := None |} ] |} ] |}.

(** A raw not-after metric with a label the precedence table does not
    hold ([zone], in the place of [serial_no]). *)
Definition metric_with_new_label : dto_Metric :=
  {| m_Label := [ label "cn" "example.com"; label "dnsnames" ",example.com,";
                  label "emails" ""; label "ips" ""; label "issuer_cn" "Example CA";
                  label "ou" ""; label "zone" "eu-west" ];
     m_Gauge := Some 1735689600%float |}.

(** A raw not-after metric with two labels of rank 1, [name] and [secret],
    and a label of rank 0, [prober]; the labels are in the order of their
    names, as a registry gathers them, so [name] comes before [secret]. *)
Definition metric_with_equal_ranks : dto_Metric :=
  {| m_Label := [ label "cn" "example.com"; label "dnsnames" ",example.com,";
                  label "emails" ""; label "ips" ""; label "name" "tls-name";
                  label "prober" "tcp"; label "secret" "tls-secret" ];
     m_Gauge := Some 1735689600%float |}.

Definition family_named (name : string) : dto_MetricFamily :=
  {| mf_Name := name; mf_Metric := [] |}.

Definition example_Probers : gmap string ProbeFn :=
  list_to_map [ ("tcp", probe_ok); ("https", probe_failing);
                ("file", probe_unexpected); ("kubernetes", probe_counter) ].

Definition module_of (prober : string) : ssl_config_Module :=
  {| Prober := prober; ModuleParams := "" |}.

Definition example_Config : ssl_config_Config :=
  {| DefaultModule := "tcp";
     Modules := list_to_map [ ("tcp", module_of "tcp"); ("https", module_of "https");
                              ("file", module_of "file");
                              ("kubernetes", module_of "kubernetes");
                              ("smtp", module_of "smtp") ] |}.

Definition example_Options (targets : list SSLTarget) : Options :=
  {| Namespace := "ssl_exporter"; MetricsPath := "/metrics"; ProbePath := "/probe";
     Registry := Some NewRegistry; SSLTargets := targets;
     SSLConfig := example_Config; log := {| logger_name := "ssl_exporter" |} |}.

(** The same options with no default module configured. *)
Definition example_Options_no_default (targets : list SSLTarget) : Options :=
  {| Namespace := "ssl_exporter"; MetricsPath := "/metrics"; ProbePath := "/probe";
     Registry := Some NewRegistry; SSLTargets := targets;
     SSLConfig := {| DefaultModule := ""; Modules := Modules example_Config |};
     log := {| logger_name := "ssl_exporter" |} |}.

Definition target (address module : string) : SSLTarget :=
  {| target_Target := address; target_Module := module |}.

(** A sort to run slices of more than 12 elements with (no example has
    one). *)
Definition example_quickSort : ∀ A : Type, (A → A → bool) → list A → list A :=
  λ A less x, insertionSort_func less x.

Definition example_Collect (targets : list SSLTarget) : Outcome :=
  Collect example_quickSort example_Probers (NewSSLExporter (example_Options targets)).

(** The state [Collect] starts from. *)
Definition initial (e : Exporter) : World :=
  {| exporter := e; ch := []; logged := [] |}.

(** What a run sent, readably: name, value and label values of each
    metric. *)
Definition sent (o : Outcome) : list (string * float * list string) :=
  map (λ metric, (fqName (cm_desc metric), cm_val metric, cm_labelValues metric))
      (ch (world_of o)).

(** ** [Describe], and what the further properties are stated with *)

(** [Exporter.Describe]: every descriptor of [descs] is sent on the channel.
    Go ranges over a map in an order it does not specify; the order here is
    that of [map_to_list], and nothing proved of [Describe] depends on it. *)
Definition Describe (e : Exporter) (ch : list prometheus_Desc)
    : list prometheus_Desc :=
  ch ++ (map_to_list descs).*2.

(** Two exporters that [Collect] reads alike: the names of the two gauges,
    the children of the prober vector and the module configuration are the
    same. *)
Definition reads_alike (ea eb : Exporter) : Prop :=
  gauge_Name (probeSuccess ea) = gauge_Name (probeSuccess eb)
  ∧ proberType ea = proberType eb
  ∧ SSLConfig (options ea) = SSLConfig (options eb).

(** The children of the prober vector after the loop over [targets]: each
    target that resolves sets the child of its prober kind to 1. *)
Definition childrenAfter (Probers : gmap string ProbeFn) (cfg : ssl_config_Config)
    (children : gmap string float) (targets : list SSLTarget) : gmap string float :=
  foldl (λ cs target,
           match resolve Probers cfg target with
           | inr (module, _) => <[Prober module := 1%float]> cs
           | inl _ => cs
           end) children targets.

(** The exporter after [n] calls of [Collect]. *)
Definition CollectAgain
    (quickSort_func : ∀ A : Type, (A → A → bool) → list A → list A)
    (Probers : gmap string ProbeFn) (n : nat) (e : Exporter) : Exporter :=
  Nat.iter n (λ e, exporter (world_of (Collect quickSort_func Probers e))) e.

(** The value of the probe-success gauge after the loop over [targets]:
    each target that resolves sets it to the outcome of its probe. *)
Definition lastProbeSuccess (Probers : gmap string ProbeFn) (cfg : ssl_config_Config)
    (value : float) (targets : list SSLTarget) : float :=
  foldl (λ v target,
           match resolve Probers cfg target with
           | inr (module, probeFunc) =>
               match probe_err (probeFunc (target_Target target) module) with
               | Some _ => 0%float
               | None => 1%float
               end
           | inl _ => v
           end) value targets.

(** A prober that registers two collectors of one name: their sub-registry
    does not gather. *)
Definition probe_twice : ProbeFn := λ _ _,
  {| probe_err := None;
     probe_registered :=
       [ gaugeFamily "ssl_cert_not_after" example_certLabels 1735689600%float;
         gaugeFamily "ssl_cert_not_after" example_certLabels 1767225600%float ] |}.

Definition example_Probers_twice : gmap string ProbeFn :=
  list_to_map [ ("tcp", probe_twice) ].

(** * Package [usagestats]: the usage reporter *)

(** ** Time *)

(** [time.Time] as the nanoseconds since the zero time (January 1, year 1),
    [time.Duration] as nanoseconds in an [int64]. One clock is modelled: the
    wall clock and the monotonic clock readings of a [Time] agree. *)
Definition Time : Type := Z.
Definition Duration : Type := Z.

Definition minDuration : Duration := (- 2 ^ 63)%Z.
Definition maxDuration : Duration := (2 ^ 63 - 1)%Z.

Definition Second : Duration := 1000000000%Z.
Definition Minute : Duration := (60 * Second)%Z.
Definition Hour : Duration := (60 * Minute)%Z.

Definition Time_Add (t : Time) (d : Duration) : Time := (t + d)%Z.

(** [t.Sub(u)]: the difference, or the largest or smallest duration when it
    does not fit one. *)
Definition Time_Sub (t u : Time) : Duration :=
  if decide (maxDuration < t - u)%Z then maxDuration
  else if decide (t - u < minDuration)%Z then minDuration
  else (t - u)%Z.

Definition Time_Equal (t u : Time) : bool := bool_decide (t = u).

Definition Time_IsZero (t : Time) : bool := bool_decide (t = 0%Z).

(** ** The seed file *)

Definition agentSeedFileName : string := "agent_seed.json".

Definition reportCheckInterval : Duration := Minute.
Definition reportInterval : Duration := (1 * Hour)%Z.

(** The fields of [AgentSeed] that the reporter sets. *)
Record AgentSeed := {
  UID : string;
  PrometheusVersion : string;
  CreatedAt : Time
}.

Inductive os_error := ErrNotExist | ErrPermission.

Inductive usage_error :=
| PathError (err : os_error)        (* of [os.Stat], [ReadFile], [WriteFile] *)
| CodecError (msg : string)         (* of [JSONCodec] *)
| SendError (msg : string)          (* of [sendReport] *)
| ContextError (msg : string).      (* [ctx.Err()] *)

(** The files the reporter can see: their contents by path, the paths that
    cannot be accessed (stat, open for reading and open for writing fail
    with a permission error), and whether the directory is read-only. *)
Record FileSystem := {
  files : gmap string string;
  denied : gset string;
  readOnly : bool
}.

Definition os_Stat (fs : FileSystem) (path : string) : option os_error :=
  if decide (path ∈ denied fs) then Some ErrPermission
  else match files fs !! path with
       | Some _ => None
       | None => Some ErrNotExist
       end.

Definition ioutil_ReadFile (fs : FileSystem) (path : string) : os_error + string :=
  if decide (path ∈ denied fs) then inl ErrPermission
  else match files fs !! path with
       | Some data => inr data
       | None => inl ErrNotExist
       end.

(** [ioutil.WriteFile]: the file is created or replaced; when it cannot be
    opened for writing nothing changes. *)
Definition ioutil_WriteFile (fs : FileSystem) (path data : string)
    : FileSystem * option os_error :=
  if decide (path ∈ denied fs) then (fs, Some ErrPermission)
  else if readOnly fs then (fs, Some ErrPermission)
  else ({| files := <[path := data]> (files fs); denied := denied fs;
           readOnly := readOnly fs |}, None).

(** [fileExists]: [!errors.Is(err, os.ErrNotExist)] on the error of
    [os.Stat]. *)
Definition fileExists (fs : FileSystem) (path : string) : bool :=
  match os_Stat fs path with
  | Some ErrNotExist => false
  | Some ErrPermission => true
  | None => true
  end.

(** ** The reporter *)

(** [Reporter]: the seed pointer (nil at first), the time of the last
    report (the zero time at first) and, of the configuration, the enabled
    features. *)
Record Reporter := {
  agentSeed : option AgentSeed;
  lastReport : Time;
  cfg_EnabledFeatures : list string
}.

Definition NewReporter (enabledFeatures : list string) : Reporter :=
  {| agentSeed := None; lastReport := 0%Z; cfg_EnabledFeatures := enabledFeatures |}.

Definition set_agentSeed (rep : Reporter) (seed : option AgentSeed) : Reporter :=
  {| agentSeed := seed; lastReport := lastReport rep;
     cfg_EnabledFeatures := cfg_EnabledFeatures rep |}.

Definition set_lastReport (rep : Reporter) (t : Time) : Reporter :=
  {| agentSeed := agentSeed rep; lastReport := t;
     cfg_EnabledFeatures := cfg_EnabledFeatures rep |}.

(** [getMetrics]: the one entry of the map. *)
Definition getMetrics (rep : Reporter) : list (string * list string) :=
  [ ("enabled-features", cfg_EnabledFeatures rep) ].

(** What [init] reads of its surroundings when it makes a seed. *)
Record SeedSource := {
  uuid_NewString : string;
  build_GetVersion : string;
  time_Now : Time
}.

(** One entry per [level.Info(rep.logger).Log] of the reporter. *)
Inductive ReporterLog :=
| LogRunning                                       (* "running usage stats reporter" *)
| LogFailedInit (err : usage_error)                (* "failed to init seed" *)
| LogReporting                                     (* "reporting cluster stats" *)
| LogFailedReport (errs : list usage_error)        (* "failed to report usage" *)
| LogFailedSend (retries : nat) (err : usage_error)  (* "failed to send usage report" *)
| LogSent.                                         (* "usage report sent with success" *)

(** The backoff of [reportUsage]: [MaxRetries: 5]; of its state only the
    number of retries decides what [reportUsage] returns. *)
Definition MaxRetries : nat := 5.

(** [backoff.Ongoing()]: the context has no error and the retries are not
    used up. *)
Definition Ongoing (ctxDone : bool) (numRetries : nat) : bool :=
  negb ctxDone && bool_decide (numRetries < MaxRetries).

(** [errs.Err()] of a [multierror.MultiError]: nil when no error was added,
    the errors added otherwise. *)
Definition MultiError_Err (errs : list usage_error) : option (list usage_error) :=
  match errs with
  | [] => None
  | _ => Some errs
  end.

(** What a call of [reportUsage] did: the error it returns, the number of
    calls of [sendReport], whether one succeeded, and what it logged. *)
Record ReportRun := {
  run_err : option (list usage_error);
  run_sends : nat;
  run_sent : bool;
  run_log : list ReporterLog
}.

(** The loop of [reportUsage]. [send k] is the error of the call of
    [sendReport] made after [k] failed ones, [ctxDone k] whether the context
    has an error when [Ongoing] is evaluated after [k] failed calls. Each
    failed call is followed by one [backoff.Wait()], which adds one to the
    number of retries. The result is [None] when [fuel] runs out. *)
Fixpoint reportUsage_loop (send : nat → option usage_error) (ctxDone : nat → bool)
    (fuel numRetries : nat) (errs : list usage_error) (log : list ReporterLog)
    : option ReportRun :=
  match fuel with
  | 0 => None
  | S fuel =>
      if Ongoing (ctxDone numRetries) numRetries then
        match send numRetries with
        | Some err =>
            reportUsage_loop send ctxDone fuel (S numRetries) (errs ++ [err])
              (log ++ [LogFailedSend numRetries err])
        | None =>
            Some {| run_err := None; run_sends := S numRetries; run_sent := true;
                    run_log := log ++ [LogSent] |}
        end
      else
        Some {| run_err := MultiError_Err errs; run_sends := numRetries;
                run_sent := false; run_log := log |}
  end.

Definition reportUsage (send : nat → option usage_error) (ctxDone : nat → bool)
    : option ReportRun :=
  reportUsage_loop send ctxDone (S MaxRetries) 0 [] [].

(** What happens while [Start] waits in its [select]: the ticker fires at
    [now], with the surroundings of the call of [reportUsage] it may lead
    to, or the context is done. *)
Inductive Event :=
| Tick (now : Time) (send : nat → option usage_error) (ctxDone : nat → bool)
| Done (err : usage_error).

(** The state of [Start] in its loop. [reported] lists the [interval]
    argument of the calls of [reportUsage] in which a report was sent. *)
Record Started := {
  reporter : Reporter;
  next : Time;
  reported : list Time;
  started_log : list ReporterLog
}.

(** How [Start] ends on the events given: it returns an error, it is still
    waiting in [select], a call ran out of fuel, or it dereferenced a nil
    seed. *)
Inductive StartResult :=
| StartReturns (err : usage_error)
| StartWaits
| StartOutOfFuel
| StartPanics.

Section usagestats.

(** [JSONCodec] and [nextReport]'s arithmetic on [float64] are parameters. *)
Variable Encode : AgentSeed → usage_error + string.
Variable Decode : string → usage_error + AgentSeed.
Variable nextReport : Duration → Time → Time → Time.

Definition readSeedFile (fs : FileSystem) : usage_error + AgentSeed :=
  match ioutil_ReadFile fs agentSeedFileName with
  | inl err => inl (PathError err)
  | inr data =>
      match Decode data with
      | inl err => inl err
      | inr seed => inr seed
      end
  end.

Definition writeSeedFile (fs : FileSystem) (seed : AgentSeed)
    : FileSystem * option usage_error :=
  match Encode seed with
  | inl err => (fs, Some err)
  | inr data =>
      match ioutil_WriteFile fs agentSeedFileName data with
      | (fs', Some err) => (fs', Some (PathError err))
      | (fs', None) => (fs', None)
      end
  end.

(** [Reporter.init]. *)
Definition init (rep : Reporter) (fs : FileSystem) (src : SeedSource)
    : Reporter * FileSystem * option usage_error :=
  if fileExists fs agentSeedFileName then
    match readSeedFile fs with
    | inr seed => (set_agentSeed rep (Some seed), fs, None)
    | inl err => (set_agentSeed rep None, fs, Some err)
    end
  else
    let seed := {| UID := uuid_NewString src;
                   PrometheusVersion := build_GetVersion src;
                   CreatedAt := time_Now src |} in
    let '(fs', err) := writeSeedFile fs seed in
    (set_agentSeed rep (Some seed), fs', err).

(** The [case <-ticker.C] of the loop of [Start]; [None] when the call of
    [reportUsage] runs out of fuel. *)
Definition onTick (st : Started) (now : Time) (send : nat → option usage_error)
    (ctxDone : nat → bool) : option Started :=
  if negb (Time_Equal (next st) now)
     && bool_decide (Time_Sub now (lastReport (reporter st)) < reportInterval)%Z
  then Some st
  else
    let log := started_log st ++ [LogReporting] in
    match reportUsage send ctxDone with
    | None => None
    | Some run =>
        match run_err run with
        | Some err =>
            Some {| reporter := reporter st; next := next st;
                    reported := reported st
                                ++ (if run_sent run then [next st] else []);
                    started_log := log ++ run_log run ++ [LogFailedReport err] |}
        | None =>
            Some {| reporter := set_lastReport (reporter st) (next st);
                    next := Time_Add (next st) reportInterval;
                    reported := reported st
                                ++ (if run_sent run then [next st] else []);
                    started_log := log ++ run_log run |}
        end
    end.

(** The loop of [Start] on the events that occur. *)
Fixpoint Start_loop (st : Started) (events : list Event) : Started * StartResult :=
  match events with
  | [] => (st, StartWaits)
  | Done err :: _ => (st, StartReturns err)
  | Tick now send ctxDone :: events =>
      match onTick st now send ctxDone with
      | Some st' => Start_loop st' events
      | None => (st, StartOutOfFuel)
      end
  end.

(** [Reporter.Start]: [now] is the [time.Now()] given to [nextReport]. *)
Definition Start (rep : Reporter) (fs : FileSystem) (src : SeedSource) (now : Time)
    (events : list Event) : Started * FileSystem * StartResult :=
  let log := [LogRunning] in
  match init rep fs src with
  | (rep, fs, Some err) =>
      ({| reporter := rep; next := 0%Z; reported := [];
          started_log := log ++ [LogFailedInit err] |}, fs, StartReturns err)
  | (rep, fs, None) =>
      match agentSeed rep with
      | None =>
          ({| reporter := rep; next := 0%Z; reported := []; started_log := log |},
           fs, StartPanics)
      | Some seed =>
          let next := nextReport reportInterval (CreatedAt seed) now in
          let rep :=
            if Time_IsZero (lastReport rep)
            then set_lastReport rep (Time_Add next (- reportInterval)%Z)
            else rep in
          let '(st, res) :=
            Start_loop {| reporter := rep; next := next; reported := [];
                          started_log := log |} events in
          (st, fs, res)
      end
  end.

End usagestats.

(** ** Surroundings to run the reporter in *)

(** A codec for the examples: the three fields, separated by commas. *)
Fixpoint cut (sep : ascii) (s : string) : string * string :=
  match s with
  | EmptyString => (EmptyString, EmptyString)
  | String c s' =>
      if Ascii.eqb c sep then (EmptyString, s')
      else let '(a, b) := cut sep s' in (String c a, b)
  end.

Definition example_Encode (seed : AgentSeed) : usage_error + string :=
  inr (UID seed +:+ "," +:+ PrometheusVersion seed +:+ ","
       +:+ NilZero.string_of_int (Z.to_int (CreatedAt seed))).

Definition example_Decode (data : string) : usage_error + AgentSeed :=
  let '(uid, rest) := cut "," data in
  let '(version, created) := cut "," rest in
  match NilZero.int_of_string created with
  | Some i => inr {| UID := uid; PrometheusVersion := version; CreatedAt := Z.of_int i |}
  | None => inl (CodecError "CreatedAt")
  end.

Definition empty_FileSystem : FileSystem :=
  {| files := ∅; denied := ∅; readOnly := false |}.

Definition example_SeedSource : SeedSource :=
  {| uuid_NewString := "5f0c1b1e-5d3a-4a0e-9c57-2f1f0e1d7a11";
     build_GetVersion := "2.35.0";
     time_Now := 63786000000000000000%Z |}.

Definition always_sent : nat → option usage_error := λ _, None.
Definition never_sent : nat → option usage_error := λ _, Some (SendError "connection refused").
Definition context_live : nat → bool := λ _, false.

(** * Properties *)

(** ** [sort.Slice] on at most 12 elements *)

Section sort_facts.
Context {A : Type}.
Variable less : A → A → bool.

Lemma Swap_Permutation (data : list A) i j : Swap data i j ≡ₚ data.
Proof.
  unfold Swap.
  destruct (data !! i) as [x|] eqn:Hi; [|done].
  destruct (data !! j) as [y|] eqn:Hj; [|done].
  by apply Permutation_insert_swap.
Qed.

Lemma Swap_length (data : list A) i j : length (Swap data i j) = length data.
Proof. apply Permutation_length, Swap_Permutation. Qed.

Lemma Swap_adjacent (pre : list A) x y post :
  Swap (pre ++ y :: x :: post) (S (length pre)) (length pre) = pre ++ x :: y :: post.
Proof.
  unfold Swap.
  replace ((pre ++ y :: x :: post) !! S (length pre)) with (Some x).
  2:{ rewrite lookup_app_r by lia. by replace (S (length pre) - length pre) with 1 by lia. }
  rewrite list_lookup_middle by done.
  induction pre as [|a pre IH]; simpl; [done|]. by f_equal.
Qed.

Lemma lookup_snoc_next (pre : list A) y x post :
  (pre ++ y :: x :: post) !! S (length pre) = Some x.
Proof. induction pre; simpl; done. Qed.

Lemma sinkDown_moveLeft (rp : list A) x post :
  sinkDown less (reverse rp ++ x :: post) (length rp)
  = reverse (moveLeft less x rp) ++ post.
Proof.
  revert post. induction rp as [|y r IH]; intros post; [done|].
  rewrite reverse_cons, <-app_assoc. cbn [app length sinkDown moveLeft].
  assert (Hlen : length r = length (reverse r)) by by rewrite length_reverse.
  assert (HL : Less less (reverse r ++ y :: x :: post) (S (length r)) (length r) = less x y).
  { unfold Less. rewrite Hlen, lookup_snoc_next, list_lookup_middle; done. }
  rewrite HL. destruct (less x y).
  - rewrite Hlen, Swap_adjacent, <-Hlen, IH.
    by rewrite reverse_cons, <-app_assoc.
  - by rewrite !reverse_cons, <-!app_assoc.
Qed.

Lemma moveLeft_Permutation x (rp : list A) : moveLeft less x rp ≡ₚ x :: rp.
Proof.
  induction rp as [|y r IH]; simpl; [done|].
  destruct (less x y); [|done]. by rewrite IH, Permutation_swap.
Qed.

Lemma moveLeft_length x (rp : list A) : length (moveLeft less x rp) = S (length rp).
Proof. by rewrite (Permutation_length (moveLeft_Permutation x rp)). Qed.

Lemma foldl_sinkDown (rest rp : list A) :
  foldl (sinkDown less) (reverse rp ++ rest) (seq (length rp) (length rest))
  = reverse (foldl (λ rp x, moveLeft less x rp) rp rest).
Proof.
  revert rp. induction rest as [|x rest IH]; intros rp; simpl.
  - by rewrite app_nil_r.
  - rewrite sinkDown_moveLeft. rewrite <-(moveLeft_length x rp). apply IH.
Qed.

Lemma insertionSort_func_eq (data : list A) :
  insertionSort_func less data
  = reverse (foldl (λ rp x, moveLeft less x rp) [] data).
Proof.
  unfold insertionSort_func. destruct data as [|x rest]; [done|].
  simpl. rewrite Nat.sub_0_r. apply (foldl_sinkDown rest [x]).
Qed.

Lemma foldl_moveLeft_Permutation (rest rp : list A) :
  foldl (λ rp x, moveLeft less x rp) rp rest ≡ₚ rp ++ rest.
Proof.
  revert rp. induction rest as [|x rest IH]; intros rp; simpl.
  - by rewrite app_nil_r.
  - rewrite IH, moveLeft_Permutation. simpl. apply Permutation_middle.
Qed.

Lemma insertionSort_func_Permutation (data : list A) :
  insertionSort_func less data ≡ₚ data.
Proof.
  rewrite insertionSort_func_eq, reverse_Permutation.
  apply (foldl_moveLeft_Permutation data []).
Qed.

Lemma shellPass_Permutation (data : list A) : shellPass less data ≡ₚ data.
Proof.
  unfold shellPass. generalize (seq 6 (length data - 6)) as idx.
  intros idx. revert data. induction idx as [|i idx IH]; intros data; simpl; [done|].
  rewrite IH. destruct (Less less data i (i - 6)); [apply Swap_Permutation|done].
Qed.

Lemma shellPass_short (data : list A) : length data ≤ 6 → shellPass less data = data.
Proof. intros H. unfold shellPass. by replace (length data - 6) with 0 by lia. Qed.

End sort_facts.

Section sort_by_key.
Context {A : Type}.
Variable key : A → Z.
Let less : A → A → bool := λ a b, bool_decide (key a < key b)%Z.

Lemma moveLeft_sorted x (rp : list A) :
  StronglySorted (λ a b, key b ≤ key a)%Z rp →
  StronglySorted (λ a b, key b ≤ key a)%Z (moveLeft less x rp).
Proof.
  induction rp as [|y r IH]; simpl; intros Hs.
  - repeat constructor.
  - apply StronglySorted_inv in Hs as [Hr Hy]. unfold less at 1.
    case_bool_decide as Hxy.
    + constructor; [by apply IH|].
      rewrite (moveLeft_Permutation less x r). constructor; [lia|done].
    + constructor; [by constructor|].
      constructor; [lia|]. eapply Forall_impl; [exact Hy|]. simpl. intros; lia.
Qed.

Lemma foldl_moveLeft_sorted (rest rp : list A) :
  StronglySorted (λ a b, key b ≤ key a)%Z rp →
  StronglySorted (λ a b, key b ≤ key a)%Z (foldl (λ rp x, moveLeft less x rp) rp rest).
Proof.
  revert rp. induction rest as [|x rest IH]; intros rp Hs; simpl; [done|].
  by apply IH, moveLeft_sorted.
Qed.

Lemma StronglySorted_reverse_key (l : list A) :
  StronglySorted (λ a b, key b ≤ key a)%Z l →
  StronglySorted (λ a b, key a ≤ key b)%Z (reverse l).
Proof.
  induction l as [|x l IH]; intros Hs; [constructor|].
  apply StronglySorted_inv in Hs as [Hl Hx].
  rewrite reverse_cons. apply StronglySorted_app_2; [|by apply IH|repeat constructor].
  intros a b Ha Hb. rewrite elem_of_reverse in Ha.
  rewrite list_elem_of_singleton in Hb. subst b.
  rewrite Forall_forall in Hx. by apply Hx.
Qed.

Lemma insertionSort_func_sorted (data : list A) :
  StronglySorted (λ a b, key a ≤ key b)%Z (insertionSort_func less data).
Proof.
  rewrite insertionSort_func_eq. apply StronglySorted_reverse_key.
  apply foldl_moveLeft_sorted. constructor.
Qed.

Lemma moveLeft_filter k x (rp : list A) :
  filter (λ a, key a = k) (moveLeft less x rp) = filter (λ a, key a = k) (x :: rp).
Proof.
  induction rp as [|y r IH]; simpl; [done|]. unfold less at 1.
  case_bool_decide as Hxy; [|done].
  rewrite filter_cons, IH, !filter_cons.
  repeat case_decide; try done; lia.
Qed.

Lemma foldl_moveLeft_filter k (rest rp : list A) :
  filter (λ a, key a = k) (foldl (λ rp x, moveLeft less x rp) rp rest)
  = reverse (filter (λ a, key a = k) rest) ++ filter (λ a, key a = k) rp.
Proof.
  revert rp. induction rest as [|x rest IH]; intros rp; simpl; [done|].
  rewrite IH, moveLeft_filter, !filter_cons.
  case_decide; [|done]. by rewrite reverse_cons, <-app_assoc.
Qed.

Lemma insertionSort_func_stable k (data : list A) :
  filter (λ a, key a = k) (insertionSort_func less data)
  = filter (λ a, key a = k) data.
Proof.
  rewrite insertionSort_func_eq, filter_reverse, foldl_moveLeft_filter.
  by rewrite app_nil_r, reverse_involutive.
Qed.
End sort_by_key.

(** ** The tables *)

Lemma descs_lookup_descsList name desc :
  descs !! name = Some desc → (name, desc) ∈ descsList.
Proof. unfold descs. apply elem_of_list_to_map_2. Qed.

Lemma descs_at_most_10_labels name desc :
  descs !! name = Some desc → length (variableLabels desc) ≤ 10.
Proof.
  intros H%descs_lookup_descsList.
  assert (Hall : Forall (λ nd : string * prometheus_Desc, length (variableLabels nd.2) ≤ 10) descsList).
  { unfold descsList. repeat constructor; simpl; lia. }
  rewrite Forall_forall in Hall. apply (Hall _ H).
Qed.

Lemma descs_fqName_probe_success name desc :
  descs !! name = Some desc → fqName desc = "ssl_probe_success" →
  name = "ssl_exporter_probe_success".
Proof.
  intros H%descs_lookup_descsList Hfq.
  assert (Hall : Forall (λ nd : string * prometheus_Desc,
                 fqName nd.2 = "ssl_probe_success" → nd.1 = "ssl_exporter_probe_success") descsList).
  { unfold descsList. repeat constructor; simpl; intros; done. }
  rewrite Forall_forall in Hall. apply (Hall _ H Hfq).
Qed.

Lemma descs_fqName_prober name desc :
  descs !! name = Some desc → fqName desc = "ssl_prober" →
  name = "ssl_exporter_prober".
Proof.
  intros H%descs_lookup_descsList Hfq.
  assert (Hall : Forall (λ nd : string * prometheus_Desc,
                 fqName nd.2 = "ssl_prober" → nd.1 = "ssl_exporter_prober") descsList).
  { unfold descsList. repeat constructor; simpl; intros; done. }
  rewrite Forall_forall in Hall. apply (Hall _ H Hfq).
Qed.

Lemma descs_probe_success :
  descs !! "ssl_exporter_probe_success"
  = Some (NewDesc "ssl_probe_success" "If the probe was a success" []).
Proof. vm_compute. reflexivity. Qed.

Lemma descs_prober :
  descs !! "ssl_exporter_prober"
  = Some (NewDesc "ssl_prober"
            "The prober used by the exporter to connect to the target" ["prober"]).
Proof. vm_compute. reflexivity. Qed.

(** ** Counting in lists *)

Lemma filter_none {A} (P : A → Prop) `{∀ x, Decision (P x)} (l : list A) :
  (∀ x, x ∈ l → ¬ P x) → filter P l = [].
Proof.
  induction l as [|x l IH]; intros Hl; [reflexivity|].
  rewrite filter_cons_False; [|apply Hl; left].
  apply IH. intros y Hy. apply Hl. by right.
Qed.

Lemma filter_key_once {K V} `{EqDecision K} (l : list (K * V)) k v :
  NoDup l.*1 → (k, v) ∈ l → length (filter (λ kv, kv.1 = k) l) = 1.
Proof.
  induction l as [|[k' v'] l IH]; intros Hnd Hin; [by apply elem_of_nil in Hin|].
  cbn [fmap list_fmap fst] in Hnd. apply NoDup_cons in Hnd as [Hk' Hnd].
  apply elem_of_cons in Hin as [[= <- <-]|Hin].
  - rewrite filter_cons_True by reflexivity. cbn [length]. f_equal.
    rewrite filter_none; [reflexivity|].
    intros [k2 v2] Hin2 Heq. cbn in Heq. subst k2. apply Hk'.
    apply list_elem_of_fmap. by exists (k, v2).
  - rewrite filter_cons_False; [by apply IH|].
    cbn. intros ->. apply Hk'. apply list_elem_of_fmap. by exists (k, v).
Qed.

(** The tables are looked up, never unfolded, in what follows. *)
#[local] Opaque descs labelOrder.

Section properties.
Variable quickSort_func : ∀ A : Type, (A → A → bool) → list A → list A.
Hypothesis quickSort_func_Permutation :
  ∀ (A : Type) (less : A → A → bool) (x : list A), quickSort_func A less x ≡ₚ x.
Variable Probers : gmap string ProbeFn.

Lemma sort_Slice_Permutation {A} (x : list A) less :
  sort_Slice quickSort_func x less ≡ₚ x.
Proof.
  unfold sort_Slice. repeat case_decide; [done| |done].
  by rewrite insertionSort_func_Permutation, shellPass_Permutation.
Qed.

Lemma sort_Slice_length {A} (x : list A) less :
  length (sort_Slice quickSort_func x less) = length x.
Proof. apply Permutation_length, sort_Slice_Permutation. Qed.

Lemma sort_Slice_sorted {A} (key : A → Z) (x : list A) :
  length x ≤ 12 →
  StronglySorted (λ a b, key a ≤ key b)%Z
    (sort_Slice quickSort_func x (λ a b, bool_decide (key a < key b)%Z)).
Proof.
  intros Hlen. unfold sort_Slice. repeat case_decide; [lia| |].
  - apply insertionSort_func_sorted.
  - destruct x as [|a [|b x]]; simpl in *; [constructor|repeat constructor|lia].
Qed.

Lemma sort_Slice_stable {A} (key : A → Z) k (x : list A) :
  length x ≤ 6 →
  filter (λ a, key a = k) (sort_Slice quickSort_func x (λ a b, bool_decide (key a < key b)%Z))
  = filter (λ a, key a = k) x.
Proof.
  intros Hlen. unfold sort_Slice. repeat case_decide; [lia| |done].
  by rewrite insertionSort_func_stable, shellPass_short.
Qed.

(** ** The loops over the gathered families *)


(** What one raw metric does to the state: a metric sent, an entry logged,
    or a panic, and nothing else. *)
Lemma remapMetric_cases mf w m :
  match canonical quickSort_func mf m with
  | Some metric => remapMetric quickSort_func mf w m = Returns (Send w metric)
  | None =>
      (∃ entry, remapMetric quickSort_func mf w m = Returns (Log w entry))
      ∨ (remapMetric quickSort_func mf w m = Panics w
         ∧ is_Some (descs !! mf_Name mf) ∧ m_Gauge m = None)
  end.
Proof.
  unfold canonical, remapMetric.
  destruct (descs !! mf_Name mf) as [desc|]; [|left; eauto].
  destruct (m_Gauge m) as [value|]; [|right; eauto].
  destruct (NewConstMetric _ _ _ _); [left; eauto|done].
Qed.

Lemma remapMetric_Returns mf w m w' :
  remapMetric quickSort_func mf w m = Returns w' →
  exporter w' = exporter w
  ∧ ch w' = ch w ++ option_list (canonical quickSort_func mf m).
Proof.
  intros H. pose proof (remapMetric_cases mf w m) as Hc.
  destruct (canonical quickSort_func mf m) as [metric|].
  - rewrite Hc in H. clear Hc. injection H as <-. split; reflexivity.
  - destruct Hc as [[entry Hc]|[Hc _]]; rewrite Hc in H; clear Hc;
      [|discriminate H].
    injection H as <-. simpl. rewrite app_nil_r. split; reflexivity.
Qed.

Lemma remapFamily_Returns mf w w' :
  remapFamily quickSort_func w mf = Returns w' →
  exporter w' = exporter w
  ∧ ch w' = ch w ++ omap (canonical quickSort_func mf) (mf_Metric mf).
Proof.
  unfold remapFamily. generalize (mf_Metric mf) as ms. intros ms.
  revert w. induction ms as [|m ms IH]; intros w; simpl.
  - intros [= <-]. by rewrite app_nil_r.
  - destruct (remapMetric quickSort_func mf w m) as [w1|w1] eqn:Hm; [|done].
    intros [He Hch]%IH. apply remapMetric_Returns in Hm as [He1 Hch1].
    split; [congruence|]. rewrite Hch, Hch1, <-app_assoc. f_equal.
    by destruct (canonical quickSort_func mf m).
Qed.

Lemma extend_extend w ms1 ls1 ms2 ls2 :
  extend (extend w ms1 ls1) ms2 ls2 = extend w (ms1 ++ ms2) (ls1 ++ ls2).
Proof. unfold extend. simpl. by rewrite !app_assoc. Qed.

Lemma extend_nil w : extend w [] [] = w.
Proof. destruct w. unfold extend. simpl. by rewrite !app_nil_r. Qed.

(** A loop whose body sends and logs the same whatever the state it starts
    from does so too. *)
Lemma forEach_trace {X} (body : World → X → Outcome) (xs : list X) :
  (∀ x, x ∈ xs → ∃ panics metrics entries,
        ∀ w, body w x = ends panics (extend w metrics entries)) →
  ∃ panics metrics entries,
    ∀ w, forEach body w xs = ends panics (extend w metrics entries).
Proof.
  induction xs as [|x xs IH]; intros Hbody.
  - exists false, [], []. intros w. simpl. by rewrite extend_nil.
  - destruct (Hbody x) as (p1 & ms1 & ls1 & H1); [left|].
    destruct IH as (p2 & ms2 & ls2 & H2).
    { intros y Hy. apply Hbody. by right. }
    destruct p1.
    + exists true, ms1, ls1. intros w. simpl. by rewrite H1.
    + exists p2, (ms1 ++ ms2), (ls1 ++ ls2). intros w. simpl.
      rewrite H1. simpl. by rewrite H2, extend_extend.
Qed.

Lemma Log_extend w entry : Log w entry = extend w [] [entry].
Proof. unfold Log, extend. by rewrite app_nil_r. Qed.

Lemma Send_extend w metric : Send w metric = extend w [metric] [].
Proof. unfold Send, extend. by rewrite app_nil_r. Qed.

Lemma remapMetric_trace mf m :
  ∃ panics metrics entries,
    ∀ w, remapMetric quickSort_func mf w m = ends panics (extend w metrics entries).
Proof.
  unfold remapMetric. destruct (descs !! mf_Name mf) as [desc|].
  2:{ exists false, [], [LogUnknownMetric (mf_Name mf)]. intros w.
      by rewrite Log_extend. }
  destruct (m_Gauge m) as [value|].
  2:{ exists true, [], []. intros w. by rewrite extend_nil. }
  destruct (NewConstMetric _ _ _ _) as [err|metric].
  - exists false, [], [LogError err]. intros w. by rewrite Log_extend.
  - exists false, [metric], []. intros w. by rewrite Send_extend.
Qed.

Lemma remapFamily_trace mf :
  ∃ panics metrics entries,
    ∀ w, remapFamily quickSort_func w mf = ends panics (extend w metrics entries).
Proof. apply forEach_trace. intros m _. apply remapMetric_trace. Qed.

Lemma remapFamilies_trace fams :
  ∃ panics metrics entries,
    ∀ w, remapFamilies quickSort_func w fams = ends panics (extend w metrics entries).
Proof. apply forEach_trace. intros mf _. apply remapFamily_trace. Qed.

Lemma remapFamilies_Returns fams w w' :
  remapFamilies quickSort_func w fams = Returns w' →
  exporter w' = exporter w
  ∧ ch w' = ch w ++ flat_map (λ mf, omap (canonical quickSort_func mf) (mf_Metric mf)) fams.
Proof.
  unfold remapFamilies. revert w. induction fams as [|mf fams IH]; intros w; simpl.
  - intros [= <-]. by rewrite app_nil_r.
  - destruct (remapFamily quickSort_func w mf) as [w1|w1] eqn:Hm; [|done].
    intros [He Hch]%IH. apply remapFamily_Returns in Hm as [He1 Hch1].
    split; [congruence|]. by rewrite Hch, Hch1, <-app_assoc.
Qed.

(** Raw metrics that are all gauges make no loop panic. *)
Lemma remapFamilies_gauges fams w :
  (∀ mf m, mf ∈ fams → m ∈ mf_Metric mf → is_Some (m_Gauge m)) →
  ∃ w', remapFamilies quickSort_func w fams = Returns w'.
Proof.
  unfold remapFamilies. revert w. induction fams as [|mf fams IH]; intros w Hg; simpl.
  - eauto.
  - assert (Hmf : ∃ w1, remapFamily quickSort_func w mf = Returns w1).
    { unfold remapFamily.
      assert (Hms : ∀ m, m ∈ mf_Metric mf → is_Some (m_Gauge m)).
      { intros m Hm. apply (Hg mf m); [left|done]. }
      clear Hg IH. revert w Hms. generalize (mf_Metric mf) as ms.
      induction ms as [|m ms IHm]; intros w Hms; simpl; [eauto|].
      pose proof (remapMetric_cases mf w m) as Hc.
      destruct (canonical quickSort_func mf m).
      - rewrite Hc. apply IHm. intros m' Hm'. apply Hms. by right.
      - destruct Hc as [[entry ->]|(_ & _ & Hn)].
        + apply IHm. intros m' Hm'. apply Hms. by right.
        + destruct (Hms m) as [v Hv]; [left|]. congruence. }
    destruct Hmf as [w1 ->]. apply IH. intros mf' m Hmf' Hm.
    apply (Hg mf' m); [by right|done].
Qed.

Lemma StronglySorted_lookup {A} (R : relation A) (l : list A) i j a b :
  StronglySorted R l → l !! i = Some a → l !! j = Some b → i < j → R a b.
Proof.
  intros Hs. revert i j. induction Hs as [|x l Hs IH Hx]; intros i j Hi Hj Hij; [done|].
  destruct j as [|j]; [lia|]. destruct i as [|i]; simpl in *.
  - injection Hi as ->. rewrite Forall_forall in Hx.
    apply Hx. by eapply list_elem_of_lookup_2.
  - apply (IH i j); [done|done|lia].
Qed.

(** A metric sent: the family is in [descs], the raw metric is a gauge
    with as many labels as the descriptor, and the label values are those of
    the sorted labels. *)
Lemma remapMetric_Send mf w m metric :
  remapMetric quickSort_func mf w m = Returns (Send w metric) →
  ∃ desc value,
    descs !! mf_Name mf = Some desc ∧ m_Gauge m = Some value
    ∧ length (m_Label m) = length (variableLabels desc)
    ∧ metric = {| cm_desc := desc; cm_valType := GaugeValue; cm_val := value;
                  cm_labelValues :=
                    map lp_Value (sort_Slice quickSort_func (m_Label m) labelLess) |}.
Proof.
  assert (Hno : ∀ entry, Returns (Log w entry) ≠ Returns (Send w metric)).
  { intros entry [= H _]. apply (f_equal length) in H.
    rewrite length_app in H. simpl in H. lia. }
  unfold remapMetric. destruct (descs !! mf_Name mf) as [desc|]; [|by intros ?%Hno].
  destruct (m_Gauge m) as [value|]; [|done].
  unfold NewConstMetric. case_decide as Hlen; [|by intros ?%Hno].
  rewrite length_map, sort_Slice_length in Hlen.
  intros [= H]. apply app_inv_head in H. injection H as <-.
  by exists desc, value.
Qed.


(** C7 (as amended): when the gathered raw metrics are gauges, the loops
    never panic; and a raw gauge metric of a family of [descs] with a number
    of labels that is not the descriptor's is logged with the error of
    [NewConstMetric] and sends nothing. *)
Theorem C7_gauges_never_panic (w : World) (fams : list dto_MetricFamily) :
  (∀ mf m, mf ∈ fams → m ∈ mf_Metric mf → is_Some (m_Gauge m)) →
  (∃ w', remapFamilies quickSort_func w fams = Returns w')
  ∧ ∀ mf m desc w0,
      mf ∈ fams → m ∈ mf_Metric mf →
      descs !! mf_Name mf = Some desc →
      length (m_Label m) ≠ length (variableLabels desc) →
      remapMetric quickSort_func mf w0 m
      = Returns (Log w0 (LogError
          (errInconsistentCardinality (length (variableLabels desc))
             (length (m_Label m))
             (map lp_Value (sort_Slice quickSort_func (m_Label m) labelLess))))).
Proof.
  intros Hg. split; [by apply remapFamilies_gauges|].
  intros mf m desc w0 Hmf Hm Hdesc Hlen.
  destruct (Hg mf m Hmf Hm) as [value Hv].
  unfold remapMetric, NewConstMetric. rewrite Hdesc, Hv.
  rewrite length_map, sort_Slice_length. case_decide; [lia|reflexivity].
Qed.

(** The precedence rank [Collect] sorts a label by. *)
Lemma labelLess_rank :
  labelLess = λ a b, bool_decide (labelOrder_at (lp_Name a) < labelOrder_at (lp_Name b))%Z.
Proof. done. Qed.

(** C4 (as amended): in a canonical metric the label values are those of
    the raw labels, reordered, and a label whose name the table does not hold
    has rank 0: its value comes before the value of every label whose rank in
    the table is positive. *)
Theorem C4_absent_label_sorts_first (mf : dto_MetricFamily) (w : World)
    (m : dto_Metric) (metric : prometheus_Metric) :
  remapMetric quickSort_func mf w m = Returns (Send w metric) →
  ∃ sorted,
    cm_labelValues metric = map lp_Value sorted
    ∧ sorted ≡ₚ m_Label m
    ∧ ∀ i j a b,
        sorted !! i = Some a → sorted !! j = Some b →
        labelOrder !! lp_Name a = None →
        (0 < labelOrder_at (lp_Name b))%Z →
        i < j.
Proof.
  intros (desc & value & Hdesc & Hv & Hlen & ->)%remapMetric_Send.
  exists (sort_Slice quickSort_func (m_Label m) labelLess).
  split; [done|]. split; [apply sort_Slice_Permutation|].
  intros i j a b Hi Hj Ha Hb.
  assert (Hsorted : StronglySorted
            (λ a b, labelOrder_at (lp_Name a) ≤ labelOrder_at (lp_Name b))%Z
            (sort_Slice quickSort_func (m_Label m) labelLess)).
  { rewrite labelLess_rank.
    apply (sort_Slice_sorted (λ a, labelOrder_at (lp_Name a))).
    apply descs_at_most_10_labels in Hdesc. lia. }
  assert (Hra : labelOrder_at (lp_Name a) = 0%Z).
  { unfold labelOrder_at. by rewrite Ha. }
  destruct (decide (i < j)) as [|Hij]; [done|]. exfalso.
  destruct (decide (i = j)) as [->|Hne].
  - rewrite Hi in Hj. injection Hj as ->. lia.
  - pose proof (StronglySorted_lookup _ _ j i b a Hsorted Hj Hi) as Hle.
    simpl in Hle. lia.
Qed.

(** C5 (as amended): in a canonical metric the label values are those of
    the raw labels, reordered by ascending precedence rank (nothing is said
    of the order of labels of one rank). *)
Theorem C5_labels_ascending_by_rank (mf : dto_MetricFamily) (w : World)
    (m : dto_Metric) (metric : prometheus_Metric) :
  remapMetric quickSort_func mf w m = Returns (Send w metric) →
  ∃ sorted,
    cm_labelValues metric = map lp_Value sorted
    ∧ sorted ≡ₚ m_Label m
    ∧ StronglySorted (λ a b, labelOrder_at (lp_Name a) ≤ labelOrder_at (lp_Name b))%Z
                     sorted.
Proof.
  intros (desc & value & Hdesc & Hv & Hlen & ->)%remapMetric_Send.
  exists (sort_Slice quickSort_func (m_Label m) labelLess).
  split; [done|]. split; [apply sort_Slice_Permutation|].
  rewrite labelLess_rank.
  apply (sort_Slice_sorted (λ a, labelOrder_at (lp_Name a))).
  apply descs_at_most_10_labels in Hdesc. lia.
Qed.

(** ** One target *)

Lemma scrapeTarget_unresolved w target entry :
  resolve Probers (SSLConfig (options (exporter w))) target = inl entry →
  scrapeTarget quickSort_func Probers w target = Returns (Log w entry).
Proof. intros H. unfold scrapeTarget. by rewrite H. Qed.

(** The exporter after the probe of a target (lines 213-224). *)
Lemma probeTarget_spec e target module probeFunc :
  ∃ e',
    probeTarget e target module probeFunc
    = (e', subRegistry target module probeFunc,
       probe_err (probeFunc (target_Target target) module))
    ∧ Registry (options e') = Some (subRegistry target module probeFunc)
    ∧ Namespace (options e') = Namespace (options e)
    ∧ MetricsPath (options e') = MetricsPath (options e)
    ∧ ProbePath (options e') = ProbePath (options e)
    ∧ SSLTargets (options e') = SSLTargets (options e)
    ∧ SSLConfig (options e') = SSLConfig (options e)
    ∧ log (options e') = log (options e)
    ∧ exporter_namespace e' = exporter_namespace e
    ∧ gauge_Name (probeSuccess e') = gauge_Name (probeSuccess e)
    ∧ gauge_value (probeSuccess e')
      = match probe_err (probeFunc (target_Target target) module) with
        | Some _ => 0%float
        | None => 1%float
        end
    ∧ vec_Name (proberType e') = vec_Name (proberType e)
    ∧ vec_label (proberType e') = vec_label (proberType e)
    ∧ vec_children (proberType e')
      = <[Prober module := 1%float]> (vec_children (proberType e)).
Proof.
  unfold probeTarget, subRegistry.
  destruct (probe_err (probeFunc (target_Target target) module));
    eexists; repeat split.
Qed.

Lemma scrapeTarget_resolved w target module probeFunc e' registry err :
  resolve Probers (SSLConfig (options (exporter w))) target = inr (module, probeFunc) →
  MustRegister_panics (exporter w) = false →
  probeTarget (exporter w) target module probeFunc = (e', registry, err) →
  scrapeTarget quickSort_func Probers w target
  = let w1 := extend (with_exporter w e') []
                (match err with Some err => [LogError err] | None => [] end) in
    match Gather e' registry with
    | inl gerr => Returns (Log w1 (LogError gerr))
    | inr metricFams => remapFamilies quickSort_func w1 metricFams
    end.
Proof.
  intros Hres Hreg Hprobe. unfold scrapeTarget. rewrite Hres, Hreg, Hprobe.
  destruct err as [err|]; simpl.
  - by rewrite Log_extend.
  - by rewrite extend_nil.
Qed.

(** The exporter after the body of the loop, when it completes: the one
    the probe left for a target that resolved, the one before otherwise. *)
Lemma scrapeTarget_Returns_exporter w target w' :
  scrapeTarget quickSort_func Probers w target = Returns w' →
  exporter w'
  = match resolve Probers (SSLConfig (options (exporter w))) target with
    | inl _ => exporter w
    | inr (module, probeFunc) =>
        (probeTarget (exporter w) target module probeFunc).1.1
    end.
Proof.
  destruct (resolve Probers (SSLConfig (options (exporter w))) target)
    as [entry|[module probeFunc]] eqn:Hres.
  - rewrite (scrapeTarget_unresolved _ _ _ Hres). by intros [= <-].
  - destruct (MustRegister_panics (exporter w)) eqn:Hreg.
    { unfold scrapeTarget. rewrite Hres, Hreg. discriminate. }
    destruct (probeTarget (exporter w) target module probeFunc)
      as [[e' registry] err] eqn:Hprobe.
    rewrite (scrapeTarget_resolved _ _ _ _ _ _ _ Hres Hreg Hprobe). simpl.
    destruct (Gather e' registry) as [gerr|fams].
    + by intros [= <-].
    + intros [He _]%remapFamilies_Returns. by rewrite He.
Qed.

Lemma world_of_ends panics w : world_of (ends panics w) = w.
Proof. by destruct panics. Qed.

Lemma is_panic_ends panics w : is_panic (ends panics w) = panics.
Proof. by destruct panics. Qed.

(** When the body of the loop completes for a target that resolves, the
    probe-success gauge holds the outcome of the probe, the error of the
    probe was logged, and the loop goes on from the state reached. *)
Lemma scrapeTarget_Returns_probeSuccess (w : World) (target : SSLTarget)
    (module : ssl_config_Module) (probeFunc : ProbeFn) (w' : World) :
  resolve Probers (SSLConfig (options (exporter w))) target = inr (module, probeFunc) →
  scrapeTarget quickSort_func Probers w target = Returns w' →
  gauge_value (probeSuccess (exporter w'))
  = match probe_err (probeFunc (target_Target target) module) with
    | None => 1%float
    | Some _ => 0%float
    end
  ∧ (∀ err, probe_err (probeFunc (target_Target target) module) = Some err →
            ∃ entries, logged w' = logged w ++ LogError err :: entries)
  ∧ ∀ targets,
      forEach (scrapeTarget quickSort_func Probers) w (target :: targets)
      = forEach (scrapeTarget quickSort_func Probers) w' targets.
Proof.
  intros Hres Hret. split; [|split].
  - rewrite (scrapeTarget_Returns_exporter _ _ _ Hret), Hres.
    destruct (probeTarget_spec (exporter w) target module probeFunc)
      as (e' & -> & _ & _ & _ & _ & _ & _ & _ & _ & _ & Hv & _).
    simpl. rewrite Hv. by destruct (probe_err _).
  - intros err Herr.
    destruct (MustRegister_panics (exporter w)) eqn:Hreg.
    { unfold scrapeTarget in Hret. rewrite Hres, Hreg in Hret. discriminate Hret. }
    destruct (probeTarget_spec (exporter w) target module probeFunc)
      as (e' & Hprobe & _).
    rewrite (scrapeTarget_resolved _ _ _ _ _ _ _ Hres Hreg Hprobe), Herr in Hret.
    simpl in Hret. destruct (Gather e' _) as [gerr|fams].
    + injection Hret as <-. exists [LogError gerr]. simpl.
      by rewrite <-app_assoc.
    + destruct (remapFamilies_trace fams) as (p & ms & ls & Htrace).
      rewrite Htrace in Hret. destruct p; [discriminate Hret|].
      injection Hret as <-. exists ls. simpl. by rewrite <-app_assoc.
  - intros targets. simpl. by rewrite Hret.
Qed.





(** ** Gathering the sub-registry of a target *)

Lemma sort_Slice_short {A} (x : list A) less :
  length x ≤ 1 → sort_Slice quickSort_func x less = x.
Proof. intros Hlen. unfold sort_Slice. repeat case_decide; [lia|lia|reflexivity]. Qed.

Lemma canonical_desc mf m metric :
  canonical quickSort_func mf m = Some metric →
  descs !! mf_Name mf = Some (cm_desc metric).
Proof.
  unfold canonical, NewConstMetric.
  destruct (descs !! mf_Name mf) as [desc|]; [|discriminate].
  destruct (m_Gauge m) as [value|]; [|discriminate].
  case_decide; [|discriminate]. by intros [= <-].
Qed.

(** A gathered registry holds each family name once, and what it gathers
    is what its collectors send, reordered. *)
Lemma Gather_inr e r metricFams :
  Gather e r = inr metricFams →
  metricFams ≡ₚ flat_map (collect e) (collectors r)
  ∧ ∀ mf, mf ∈ flat_map (collect e) (collectors r) →
          length (filter (λ mf', mf_Name mf' = mf_Name mf)
                         (flat_map (collect e) (collectors r))) ≤ 1.
Proof.
  unfold Gather. set (fams := flat_map (collect e) (collectors r)).
  destruct (filter _ (map mf_Name fams)) as [|n ns] eqn:Hdup; [|discriminate].
  intros [= <-]. split; [apply merge_sort_Permutation|].
  intros mf Hmf.
  destruct (decide (1 < length (filter (λ mf', mf_Name mf' = mf_Name mf) fams)))
    as [Hlt|]; [|lia].
  exfalso. eapply (filter_nil_not_elem_of _ _ (mf_Name mf) Hdup); [exact Hlt|].
  apply list_elem_of_fmap. by exists mf.
Qed.

Lemma collect_Registered e regs :
  flat_map (collect e) (map Registered regs) = regs.
Proof. induction regs as [|mf regs IH]; [reflexivity|]. cbn. by f_equal. Qed.

Lemma canonical_no_label mf v desc :
  descs !! mf_Name mf = Some desc → variableLabels desc = [] →
  canonical quickSort_func mf {| m_Label := []; m_Gauge := Some v |}
  = Some {| cm_desc := desc; cm_valType := GaugeValue; cm_val := v;
            cm_labelValues := [] |}.
Proof.
  intros Hd Hl. unfold canonical, NewConstMetric. cbn [m_Label m_Gauge].
  rewrite Hd, sort_Slice_short by (cbn; lia). cbn [map length]. rewrite Hl.
  cbn [length]. case_decide; [reflexivity|lia].
Qed.

Lemma canonical_one_label mf lp v desc :
  descs !! mf_Name mf = Some desc → length (variableLabels desc) = 1 →
  canonical quickSort_func mf {| m_Label := [lp]; m_Gauge := Some v |}
  = Some {| cm_desc := desc; cm_valType := GaugeValue; cm_val := v;
            cm_labelValues := [lp_Value lp] |}.
Proof.
  intros Hd Hl. unfold canonical, NewConstMetric. cbn [m_Label m_Gauge].
  rewrite Hd, sort_Slice_short by (cbn; lia). cbn [map length]. rewrite Hl.
  case_decide; [reflexivity|lia].
Qed.

Lemma omap_canonical_one_label mf desc (lname : string) (cs : list (string * float)) :
  descs !! mf_Name mf = Some desc → length (variableLabels desc) = 1 →
  omap (canonical quickSort_func mf)
       (map (λ kv : string * float,
               {| m_Label := [ {| lp_Name := lname; lp_Value := kv.1 |} ];
                  m_Gauge := Some kv.2 |}) cs)
  = map (λ kv : string * float,
           {| cm_desc := desc; cm_valType := GaugeValue; cm_val := kv.2;
              cm_labelValues := [kv.1] |}) cs.
Proof.
  intros Hd Hl. induction cs as [|kv cs IH]; [reflexivity|].
  cbn [map omap list_omap]. rewrite (canonical_one_label mf _ _ _ Hd Hl).
  cbn [lp_Value]. f_equal. exact IH.
Qed.

(** The vector sends one family, with one metric per child. *)
Lemma collect_TheProberType e k v :
  vec_children (proberType e) !! k = Some v →
  ∃ cs, cs ≡ₚ map_to_list (vec_children (proberType e))
    ∧ collect e TheProberType
      = [ {| mf_Name := vec_Name (proberType e);
             mf_Metric :=
               map (λ kv, {| m_Label := [ {| lp_Name := vec_label (proberType e);
                                             lp_Value := kv.1 |} ];
                             m_Gauge := Some kv.2 |}) cs |} ].
Proof.
  intros Hk.
  exists (merge_sort (λ a b, string_le a.1 b.1)
            (map_to_list (vec_children (proberType e)))).
  split; [apply merge_sort_Permutation|]. unfold collect.
  destruct (merge_sort _ _) as [|c cs] eqn:Hsort; [|reflexivity].
  exfalso. pose proof (merge_sort_Permutation (λ a b : string * float, string_le a.1 b.1)
                         (map_to_list (vec_children (proberType e)))) as Hperm.
  rewrite Hsort in Hperm. apply Permutation_nil_l in Hperm.
  apply elem_of_map_to_list in Hk. rewrite <-Hperm in Hk.
  by apply elem_of_nil in Hk.
Qed.

(** What the body of the loop sends for a target that resolved, when its
    sub-registry gathers and the loops complete, on an exporter whose gauges
    have the names [descs] holds: the probe-success metric, one
    prober-identity metric per child of the vector, and metrics of other
    descriptors. *)
Lemma scrapeTarget_sent w target module probeFunc metricFams w' :
  gauge_Name (probeSuccess (exporter w)) = "ssl_exporter_probe_success" →
  vec_Name (proberType (exporter w)) = "ssl_exporter_prober" →
  resolve Probers (SSLConfig (options (exporter w))) target = inr (module, probeFunc) →
  Gather (probeTarget (exporter w) target module probeFunc).1.1
         (probeTarget (exporter w) target module probeFunc).1.2 = inr metricFams →
  scrapeTarget quickSort_func Probers w target = Returns w' →
  ∃ out rest,
    ch w' = ch w ++ out
    ∧ out ≡ₚ
        {| cm_desc := NewDesc "ssl_probe_success" "If the probe was a success" [];
           cm_valType := GaugeValue;
           cm_val := match probe_err (probeFunc (target_Target target) module) with
                     | None => 1%float
                     | Some _ => 0%float
                     end;
           cm_labelValues := [] |}
        :: map (λ kv : string * float,
                  {| cm_desc := NewDesc "ssl_prober"
                       "The prober used by the exporter to connect to the target"
                       ["prober"];
                     cm_valType := GaugeValue; cm_val := kv.2;
                     cm_labelValues := [kv.1] |})
               (map_to_list (<[Prober module := 1%float]>
                               (vec_children (proberType (exporter w)))))
        ++ rest
    ∧ ∀ metric, metric ∈ rest →
        fqName (cm_desc metric) ≠ "ssl_probe_success"
        ∧ fqName (cm_desc metric) ≠ "ssl_prober".
Proof.
  intros Hn1 Hn2 Hres Hgather Hret.
  destruct (MustRegister_panics (exporter w)) eqn:Hreg.
  { unfold scrapeTarget in Hret. rewrite Hres, Hreg in Hret. discriminate Hret. }
  destruct (probeTarget_spec (exporter w) target module probeFunc)
    as (e' & Hprobe & _ & _ & _ & _ & _ & _ & _ & _ & Hg1 & Hv & Hv1 & _ & Hch).
  rewrite Hprobe in Hgather. cbn [fst snd] in Hgather.
  rewrite (scrapeTarget_resolved _ _ _ _ _ _ _ Hres Hreg Hprobe) in Hret.
  cbn zeta in Hret. rewrite Hgather in Hret.
  apply remapFamilies_Returns in Hret as [_ Hsent].
  cbn [extend ch with_exporter] in Hsent. rewrite app_nil_r in Hsent.
  apply Gather_inr in Hgather as [Hperm Honce].
  assert (Hkind : vec_children (proberType e') !! Prober module = Some 1%float).
  { rewrite Hch. apply lookup_insert_eq. }
  destruct (collect_TheProberType e' _ _ Hkind) as (cs & Hcs & Hvec).
  set (regs := probe_registered (probeFunc (target_Target target) module)) in *.
  set (succFam := {| mf_Name := gauge_Name (probeSuccess e');
                     mf_Metric := [ {| m_Label := [];
                                       m_Gauge := Some (gauge_value (probeSuccess e')) |} ] |}).
  set (vecFam := {| mf_Name := vec_Name (proberType e');
                    mf_Metric :=
                      map (λ kv : string * float,
                             {| m_Label := [ {| lp_Name := vec_label (proberType e');
                                                lp_Value := kv.1 |} ];
                                m_Gauge := Some kv.2 |}) cs |}) in *.
  assert (Hraw : flat_map (collect e')
                   (collectors (subRegistry target module probeFunc))
                 = succFam :: vecFam :: regs).
  { unfold subRegistry. cbn [collectors app flat_map].
    rewrite Hvec, collect_Registered. reflexivity. }
  rewrite Hraw in Hperm, Honce. clear Hraw Hvec.
  assert (Hs : mf_Name succFam = "ssl_exporter_probe_success") by (cbn; congruence).
  assert (Hp : mf_Name vecFam = "ssl_exporter_prober") by (cbn; congruence).
  assert (Hregs : ∀ mf, mf ∈ regs →
            mf_Name mf ≠ "ssl_exporter_probe_success"
            ∧ mf_Name mf ≠ "ssl_exporter_prober").
  { intros mf Hmf. split; intros Heq.
    - specialize (Honce succFam ltac:(left)).
      rewrite filter_cons_True in Honce by reflexivity.
      assert (Hin : mf ∈ filter (λ mf', mf_Name mf' = mf_Name succFam) (vecFam :: regs)).
      { apply list_elem_of_filter. split; [congruence|by right]. }
      destruct (filter _ (vecFam :: regs)); [by apply elem_of_nil in Hin|].
      cbn [length] in Honce. lia.
    - specialize (Honce vecFam ltac:(right; left)).
      rewrite filter_cons_False in Honce by (rewrite Hs, Hp; discriminate).
      rewrite filter_cons_True in Honce by reflexivity.
      assert (Hin : mf ∈ filter (λ mf', mf_Name mf' = mf_Name vecFam) regs).
      { apply list_elem_of_filter. split; [congruence|done]. }
      destruct (filter _ regs); [by apply elem_of_nil in Hin|].
      cbn [length] in Honce. lia. }
  exists (flat_map (λ mf, omap (canonical quickSort_func mf) (mf_Metric mf)) metricFams),
         (flat_map (λ mf, omap (canonical quickSort_func mf) (mf_Metric mf)) regs).
  split; [exact Hsent|]. split.
  - rewrite Hperm. cbn [flat_map].
    assert (Hd1 : descs !! mf_Name succFam
                  = Some (NewDesc "ssl_probe_success" "If the probe was a success" [])).
    { rewrite Hs. apply descs_probe_success. }
    assert (Hd2 : descs !! mf_Name vecFam
                  = Some (NewDesc "ssl_prober"
                            "The prober used by the exporter to connect to the target"
                            ["prober"])).
    { rewrite Hp. apply descs_prober. }
    cbn [mf_Metric succFam omap list_omap].
    rewrite (canonical_no_label succFam _ _ Hd1 eq_refl). cbn [app]. rewrite Hv.
    replace (match probe_err (probeFunc (target_Target target) module) with
             | Some _ => 0%float | None => 1%float end)
      with (match probe_err (probeFunc (target_Target target) module) with
            | None => 1%float | Some _ => 0%float end)
      by (by destruct (probe_err _)).
    apply Permutation_skip. apply Permutation_app; [|reflexivity].
    assert (Hvm : omap (canonical quickSort_func vecFam) (mf_Metric vecFam)
                  = map (λ kv : string * float,
                           {| cm_desc := NewDesc "ssl_prober"
                                "The prober used by the exporter to connect to the target"
                                ["prober"];
                              cm_valType := GaugeValue; cm_val := kv.2;
                              cm_labelValues := [kv.1] |}) cs)
      by apply (omap_canonical_one_label vecFam _ _ cs Hd2 eq_refl).
    rewrite Hvm, <-Hch. apply Permutation_map, Hcs.
  - intros metric Hin. apply list_elem_of_In, in_flat_map in Hin as (mf & Hmf & Hin).
    apply list_elem_of_In in Hmf, Hin.
    apply list_elem_of_omap in Hin as (m & _ & Hcanon).
    apply canonical_desc in Hcanon. destruct (Hregs mf Hmf) as [Hne1 Hne2].
    split; intros Hfq.
    + apply Hne1. by eapply descs_fqName_probe_success.
    + apply Hne2. by eapply descs_fqName_prober.
Qed.

Lemma filter_prober_identity kind (l : list (string * float)) :
  length (filter (is_prober_identity kind)
            (map (λ kv : string * float,
                    {| cm_desc := NewDesc "ssl_prober"
                         "The prober used by the exporter to connect to the target"
                         ["prober"];
                       cm_valType := GaugeValue; cm_val := kv.2;
                       cm_labelValues := [kv.1] |}) l))
  = length (filter (λ kv : string * float, kv.1 = kind) l).
Proof.
  induction l as [|kv l IH]; [reflexivity|]. cbn [map].
  destruct (decide (kv.1 = kind)) as [Heq|Hne].
  - rewrite !filter_cons_True; [cbn [length]; by f_equal|exact Heq|].
    split; [reflexivity|]. cbn. by rewrite Heq.
  - rewrite !filter_cons_False; [exact IH|exact Hne|].
    intros [_ Hlv]. cbn in Hlv. by injection Hlv.
Qed.

(** C1 (as amended): on an exporter whose two gauges have the names under
    which [descs] holds them (namespace ssl_exporter), a target whose module
    or prober does not resolve sends nothing and logs why; a target that
    resolves, whose sub-registry gathers and whose metrics are remapped to the
    end, sends exactly one probe-success metric, of value 1 when the probe
    returned no error and 0 when it returned one, and exactly one
    prober-identity metric for its own prober kind, of value 1. *)
Theorem C1_resolved_target_emits_probe_metrics (w : World) (target : SSLTarget) :
  gauge_Name (probeSuccess (exporter w)) = "ssl_exporter_probe_success" →
  vec_Name (proberType (exporter w)) = "ssl_exporter_prober" →
  (∀ entry,
     resolve Probers (SSLConfig (options (exporter w))) target = inl entry →
     scrapeTarget quickSort_func Probers w target = Returns (Log w entry))
  ∧ ∀ module probeFunc metricFams w',
      resolve Probers (SSLConfig (options (exporter w))) target
      = inr (module, probeFunc) →
      Gather (probeTarget (exporter w) target module probeFunc).1.1
             (probeTarget (exporter w) target module probeFunc).1.2
      = inr metricFams →
      scrapeTarget quickSort_func Probers w target = Returns w' →
      ∃ out,
        ch w' = ch w ++ out
        ∧ length (filter is_probe_success out) = 1
        ∧ (∀ metric, metric ∈ out → is_probe_success metric →
             cm_val metric
             = match probe_err (probeFunc (target_Target target) module) with
               | None => 1%float
               | Some _ => 0%float
               end)
        ∧ length (filter (is_prober_identity (Prober module)) out) = 1
        ∧ (∀ metric, metric ∈ out → is_prober_identity (Prober module) metric →
             cm_val metric = 1%float).
Proof.
  intros Hn1 Hn2. split; [apply scrapeTarget_unresolved|].
  intros module probeFunc metricFams w' Hres Hgather Hret.
  destruct (scrapeTarget_sent _ _ _ _ _ _ Hn1 Hn2 Hres Hgather Hret)
    as (out & rest & Hch & Hperm & Hrest).
  clear Hgather Hret Hres.
  set (children := map_to_list (<[Prober module := 1%float]>
                                  (vec_children (proberType (exporter w))))) in *.
  assert (Hrest1 : filter is_probe_success rest = []).
  { apply filter_none. intros metric Hin. by apply Hrest. }
  assert (Hrest2 : filter (is_prober_identity (Prober module)) rest = []).
  { apply filter_none. intros metric Hin [Hfq _]. by apply (Hrest metric Hin). }
  assert (Hvec1 : ∀ l : list (string * float),
            filter is_probe_success
              (map (λ kv : string * float,
                      {| cm_desc := NewDesc "ssl_prober"
                           "The prober used by the exporter to connect to the target"
                           ["prober"];
                         cm_valType := GaugeValue; cm_val := kv.2;
                         cm_labelValues := [kv.1] |}) l) = []).
  { intros l. apply filter_none. intros metric Hin.
    apply list_elem_of_fmap in Hin as (kv & -> & _). discriminate. }
  assert (Hkind : (Prober module, 1%float) ∈ children).
  { apply elem_of_map_to_list, lookup_insert_eq. }
  exists out. split; [exact Hch|]. split; [|split; [|split]].
  - rewrite Hperm, filter_cons_True by reflexivity.
    by rewrite filter_app, Hvec1, Hrest1.
  - intros metric Hin Hps. rewrite Hperm in Hin.
    apply elem_of_cons in Hin as [->|Hin]; [reflexivity|].
    apply elem_of_app in Hin as [Hin|Hin].
    + apply list_elem_of_fmap in Hin as (kv & -> & _). discriminate Hps.
    + by destruct (Hrest metric Hin).
  - rewrite Hperm, filter_cons_False by (intros [Hfq _]; discriminate Hfq).
    rewrite filter_app, Hrest2, app_nil_r, filter_prober_identity.
    apply (filter_key_once children _ 1%float); [apply NoDup_fst_map_to_list|exact Hkind].
  - intros metric Hin [Hfq Hlv]. rewrite Hperm in Hin.
    apply elem_of_cons in Hin as [->|Hin]; [discriminate Hfq|].
    apply elem_of_app in Hin as [Hin|Hin].
    + apply list_elem_of_fmap in Hin as ([k v] & -> & Hkv). cbn in Hlv |- *.
      injection Hlv as ->. apply elem_of_map_to_list in Hkv.
      rewrite lookup_insert_eq in Hkv. by injection Hkv.
    + by destruct (Hrest metric Hin).
Qed.

End properties.

(** * The collector on the example configuration *)

#[local] Transparent descs labelOrder.

Lemma example_quickSort_Permutation (A : Type) (less : A → A → bool) (x : list A) :
  example_quickSort A less x ≡ₚ x.
Proof. apply insertionSort_func_Permutation. Qed.

(** C1, the claim as stated fails: a configured target whose module is not
    in the module table gets no probe-success and no prober-identity metric;
    [Collect] sends nothing and logs the unknown module. *)
Lemma C1_unresolved_target_emits_nothing :
  example_Collect [target "example.com:443" "nope"]
  = Returns {| exporter := NewSSLExporter
                             (example_Options [target "example.com:443" "nope"]);
               ch := [];
               logged := [LogUnknownModule "nope"] |}.
Proof. vm_compute. reflexivity. Qed.

(** C1, the amended statement at a target whose probe fails. *)
Lemma C1_witness :
  let w := initial (NewSSLExporter (example_Options [target "example.com:443" "https"])) in
  let w' := world_of (scrapeTarget example_quickSort example_Probers w
                        (target "example.com:443" "https")) in
  ∃ out,
    ch w' = ch w ++ out
    ∧ length (filter is_probe_success out) = 1
    ∧ (∀ metric, metric ∈ out → is_probe_success metric → cm_val metric = 0%float)
    ∧ length (filter (is_prober_identity "https") out) = 1
    ∧ (∀ metric, metric ∈ out → is_prober_identity "https" metric →
         cm_val metric = 1%float).
Proof.
  intros w w'.
  refine (proj2 (C1_resolved_target_emits_probe_metrics
                   example_quickSort example_Probers w
                   (target "example.com:443" "https") eq_refl eq_refl)
            (module_of "https") probe_failing
            (match Gather (probeTarget (exporter w) (target "example.com:443" "https")
                             (module_of "https") probe_failing).1.1
                          (probeTarget (exporter w) (target "example.com:443" "https")
                             (module_of "https") probe_failing).1.2 with
             | inr metricFams => metricFams
             | inl _ => []
             end)
            w' _ _ _); vm_compute; reflexivity.
Defined.

(** C2, the code at the failing input: a target with no module name is
    not given the default module, though one is configured and is in the
    module table; its empty name is looked up, and the target is skipped as
    an unknown module. And a target that names a module of the table is
    skipped with "Module parameter must be set" when no default is
    configured. *)
Lemma C2_empty_module_is_not_defaulted :
  DefaultModule example_Config = "tcp"
  ∧ Modules example_Config !! "tcp" = Some (module_of "tcp")
  ∧ example_Collect [target "example.com:443" ""]
    = Returns {| exporter := NewSSLExporter
                               (example_Options [target "example.com:443" ""]);
                 ch := [];
                 logged := [LogUnknownModule ""] |}
  ∧ Collect example_quickSort example_Probers
      (NewSSLExporter (example_Options_no_default [target "example.com:443" "tcp"]))
    = Returns {| exporter := NewSSLExporter
                               (example_Options_no_default
                                  [target "example.com:443" "tcp"]);
                 ch := [];
                 logged := [LogModuleParameterMustBeSet] |}.
Proof. repeat split; vm_compute; reflexivity. Qed.

(** C3, the code at the failing input: alone, the target B (prober https)
    gets its probe-success metric and the prober-identity metric of https;
    after the target A (prober tcp) in one [Collect], it gets the
    prober-identity metric of tcp as well, made while A was processed. *)
Lemma C3_prober_identity_of_earlier_target_leaks :
  sent (example_Collect [target "b.example:443" "https"])
  = [ ("ssl_probe_success", 0%float, []); ("ssl_prober", 1%float, ["https"]) ]
  ∧ sent (example_Collect [target "a.example:443" "tcp"; target "b.example:443" "https"])
    = sent (example_Collect [target "a.example:443" "tcp"])
      ++ [ ("ssl_probe_success", 0%float, []); ("ssl_prober", 1%float, ["https"]);
           ("ssl_prober", 1%float, ["tcp"]) ].
Proof. split; vm_compute; reflexivity. Qed.

(** C6, the code at the failing input: with the targets A (prober tcp) and
    B (prober https), the first [Collect] sends six metrics and the second,
    on the same exporter with the same configuration and probers, seven: A now
    gets the prober-identity metric of https too. *)
Lemma C6_second_Collect_differs :
  let targets := [target "a.example:443" "tcp"; target "b.example:443" "https"] in
  let first := example_Collect targets in
  let second := Collect example_quickSort example_Probers (exporter (world_of first)) in
  sent first
  = [ ("ssl_cert_not_after", 1735689600%float,
       ["42"; "Example CA"; "example.com"; ",example.com,"; ""; ""; ""]);
      ("ssl_probe_success", 1%float, []); ("ssl_prober", 1%float, ["tcp"]);
      ("ssl_probe_success", 0%float, []); ("ssl_prober", 1%float, ["https"]);
      ("ssl_prober", 1%float, ["tcp"]) ]
  ∧ sent second
    = [ ("ssl_cert_not_after", 1735689600%float,
         ["42"; "Example CA"; "example.com"; ",example.com,"; ""; ""; ""]);
        ("ssl_probe_success", 1%float, []); ("ssl_prober", 1%float, ["https"]);
        ("ssl_prober", 1%float, ["tcp"]);
        ("ssl_probe_success", 0%float, []); ("ssl_prober", 1%float, ["https"]);
        ("ssl_prober", 1%float, ["tcp"]) ]
  ∧ SSLTargets (options (exporter (world_of first))) = targets
  ∧ SSLConfig (options (exporter (world_of first))) = example_Config.
Proof. repeat split; vm_compute; reflexivity. Qed.

(** C4, the claim as stated fails: the label [zone], which the precedence
    table does not hold, is given rank 0 and its value comes first in the
    canonical metric, before the values of the six labels the table holds. *)
Lemma C4_absent_label_comes_first :
  labelOrder !! "zone" = None
  ∧ remapMetric example_quickSort (family_named "ssl_cert_not_after")
      (initial (NewSSLExporter (example_Options []))) metric_with_new_label
    = Returns (Send (initial (NewSSLExporter (example_Options [])))
        {| cm_desc := NewDesc "ssl_cert_not_after"
                        "NotAfter expressed as a Unix Epoch Time" certLabels;
           cm_valType := GaugeValue; cm_val := 1735689600%float;
           cm_labelValues := [ "eu-west"; "Example CA"; "example.com";
                               ",example.com,"; ""; ""; "" ] |}).
Proof. split; vm_compute; reflexivity. Qed.

(** C4, the amended statement at the same raw metric. *)
Lemma C4_witness :
  ∃ sorted,
    [ "eu-west"; "Example CA"; "example.com"; ",example.com,"; ""; ""; "" ]
    = map lp_Value sorted
    ∧ sorted ≡ₚ m_Label metric_with_new_label
    ∧ ∀ i j a b,
        sorted !! i = Some a → sorted !! j = Some b →
        labelOrder !! lp_Name a = None →
        (0 < labelOrder_at (lp_Name b))%Z →
        i < j.
Proof.
  refine (C4_absent_label_sorts_first example_quickSort example_quickSort_Permutation
            (family_named "ssl_cert_not_after")
            (initial (NewSSLExporter (example_Options []))) metric_with_new_label
            {| cm_desc := NewDesc "ssl_cert_not_after"
                            "NotAfter expressed as a Unix Epoch Time" certLabels;
               cm_valType := GaugeValue; cm_val := 1735689600%float;
               cm_labelValues := [ "eu-west"; "Example CA"; "example.com";
                                   ",example.com,"; ""; ""; "" ] |} _).
  vm_compute. reflexivity.
Defined.

(** C5, the claim as stated fails: the labels of the raw metric are in the
    order of their names, as the registry gathers them; [name] and [secret]
    have rank 1 and [name] comes first in the raw metric, but in the
    canonical metric the value of [secret] comes before the value of [name]
    (the Shell pass of [sort.Slice] has swapped the first and the seventh
    label, [cn] and [secret]). *)
Lemma C5_equal_ranks_are_reordered :
  labelOrder_at "name" = 1%Z
  ∧ labelOrder_at "secret" = 1%Z
  ∧ map lp_Name (m_Label metric_with_equal_ranks)
    = merge_sort string_le (map lp_Name (m_Label metric_with_equal_ranks))
  ∧ map lp_Value (filter (λ l, labelOrder_at (lp_Name l) = 1%Z)
                         (m_Label metric_with_equal_ranks))
    = ["tls-name"; "tls-secret"]
  ∧ remapMetric example_quickSort (family_named "ssl_cert_not_after")
      (initial (NewSSLExporter (example_Options []))) metric_with_equal_ranks
    = Returns (Send (initial (NewSSLExporter (example_Options [])))
        {| cm_desc := NewDesc "ssl_cert_not_after"
                        "NotAfter expressed as a Unix Epoch Time" certLabels;
           cm_valType := GaugeValue; cm_val := 1735689600%float;
           cm_labelValues := [ "tcp"; "tls-secret"; "tls-name"; "example.com";
                               ",example.com,"; ""; "" ] |}).
Proof. repeat split; vm_compute; reflexivity. Qed.

(** C5, the amended statement at the same raw metric. *)
Lemma C5_witness :
  ∃ sorted,
    [ "tcp"; "tls-secret"; "tls-name"; "example.com"; ",example.com,"; ""; "" ]
    = map lp_Value sorted
    ∧ sorted ≡ₚ m_Label metric_with_equal_ranks
    ∧ StronglySorted (λ a b, labelOrder_at (lp_Name a) ≤ labelOrder_at (lp_Name b))%Z
                     sorted.
Proof.
  refine (C5_labels_ascending_by_rank example_quickSort example_quickSort_Permutation
            (family_named "ssl_cert_not_after")
            (initial (NewSSLExporter (example_Options []))) metric_with_equal_ranks
            {| cm_desc := NewDesc "ssl_cert_not_after"
                            "NotAfter expressed as a Unix Epoch Time" certLabels;
               cm_valType := GaugeValue; cm_val := 1735689600%float;
               cm_labelValues := [ "tcp"; "tls-secret"; "tls-name"; "example.com";
                                   ",example.com,"; ""; "" ] |} _).
  vm_compute. reflexivity.
Defined.

(** C7, the claim as stated fails: a prober that registers, under the
    name [ssl_cert_not_after], a metric that is not a gauge makes [Collect]
    panic; nothing was sent, not even the probe-success metric. *)
Lemma C7_non_gauge_panics :
  is_panic (example_Collect [target "10.0.0.1:443" "kubernetes"]) = true
  ∧ sent (example_Collect [target "10.0.0.1:443" "kubernetes"]) = [].
Proof. split; vm_compute; reflexivity. Qed.

(** C7, the amended statement at two gauge families, the second with eight
    labels under a descriptor that has none. *)
Lemma C7_witness :
  let w := initial (NewSSLExporter (example_Options [])) in
  let fams := [ gaugeFamily "ssl_cert_not_after" example_certLabels 1735689600%float;
                gaugeFamily "ssl_verified_cert_not_before"
                  (label "chain_no" "0" :: example_certLabels) 1704067200%float ] in
  (∃ w', remapFamilies example_quickSort w fams = Returns w')
  ∧ ∀ mf m desc w0,
      mf ∈ fams → m ∈ mf_Metric mf →
      descs !! mf_Name mf = Some desc →
      length (m_Label m) ≠ length (variableLabels desc) →
      remapMetric example_quickSort mf w0 m
      = Returns (Log w0 (LogError
          (errInconsistentCardinality (length (variableLabels desc))
             (length (m_Label m))
             (map lp_Value (sort_Slice example_quickSort (m_Label m) labelLess))))).
Proof.
  intros w fams.
  refine (C7_gauges_never_panic example_quickSort example_quickSort_Permutation
            w fams _).
  intros mf m Hmf Hm. unfold fams in Hmf.
  apply elem_of_cons in Hmf as [->|Hmf];
    [|apply elem_of_cons in Hmf as [->|Hmf]; [|by apply elem_of_nil in Hmf]];
    apply list_elem_of_singleton in Hm as ->; eexists; reflexivity.
Defined.


(** * Further properties of the collector *)

(** ** The descriptors and [Describe] *)

Lemma descsList_NoDup : NoDup descsList.*1.
Proof. refine (bool_decide_unpack _ _). vm_compute. reflexivity. Qed.

Lemma descs_to_list : map_to_list descs ≡ₚ descsList.
Proof. apply map_to_list_to_map, descsList_NoDup. Qed.

Lemma descs_elem_of desc :
  desc ∈ (map_to_list descs).*2 ↔ ∃ name, descs !! name = Some desc.
Proof.
  rewrite list_elem_of_fmap. split.
  - intros [[name d] [-> Hin]]. exists name. by apply elem_of_map_to_list.
  - intros [name Hname]. exists (name, desc). split; [done|].
    by apply elem_of_map_to_list.
Qed.

(** The variable labels of a descriptor are in strictly ascending rank. *)
Lemma descs_labels_ascending name desc :
  descs !! name = Some desc →
  StronglySorted (λ a b, labelOrder_at a < labelOrder_at b)%Z (variableLabels desc).
Proof.
  intros Hin%descs_lookup_descsList.
  assert (H : Forall (λ kv : string * prometheus_Desc,
                        StronglySorted (λ a b, labelOrder_at a < labelOrder_at b)%Z
                                       (variableLabels kv.2)) descsList)
    by (refine (bool_decide_unpack _ _); vm_compute; reflexivity).
  rewrite Forall_forall in H. exact (H _ Hin).
Qed.

Lemma NoDup_fmap_inj_on {A B} (f : A → B) (l : list A) a b :
  NoDup (f <$> l) → a ∈ l → b ∈ l → f a = f b → a = b.
Proof.
  induction l as [|x l IH]; intros Hnd Ha Hb Hf; [by apply elem_of_nil in Ha|].
  rewrite fmap_cons in Hnd. apply NoDup_cons in Hnd as [Hx Hnd].
  apply elem_of_cons in Ha as [->|Ha]; apply elem_of_cons in Hb as [->|Hb].
  - done.
  - destruct Hx. rewrite Hf. by apply list_elem_of_fmap_2.
  - destruct Hx. rewrite <-Hf. by apply list_elem_of_fmap_2.
  - by apply IH.
Qed.

Lemma StronglySorted_lt_NoDup {A} (key : A → Z) (l : list A) :
  StronglySorted (λ a b, key a < key b)%Z l → NoDup (key <$> l).
Proof.
  induction 1 as [|x l Hl IH Hx]; [constructor|].
  rewrite fmap_cons. apply NoDup_cons. split; [|done].
  intros (y & Hy & Hin)%list_elem_of_fmap.
  rewrite Forall_forall in Hx. specialize (Hx _ Hin). lia.
Qed.

(** A list in ascending order of a key is the one list in strictly
    ascending order that it is a permutation of. *)
Lemma sorted_by_key_unique {A} (key : A → Z) (l1 l2 : list A) :
  StronglySorted (λ a b, key a ≤ key b)%Z l1 →
  StronglySorted (λ a b, key a < key b)%Z l2 →
  l1 ≡ₚ l2 → l1 = l2.
Proof.
  intros H1 H2 Hp.
  apply (StronglySorted_unique_strong (λ a b, key a ≤ key b)%Z); [|done| |done].
  - intros x1 x2 Hx1 Hx2 Hle Hge.
    apply (NoDup_fmap_inj_on key l2); [by apply StronglySorted_lt_NoDup| |done|lia].
    by rewrite <-Hp.
  - clear -H2. induction H2 as [|x l Hl IH Hx]; constructor; [done|].
    eapply Forall_impl; [exact Hx|]. intros; simpl in *; lia.
Qed.

(** ** The names of the two gauges *)

Lemma list_ascii_of_string_app (s1 s2 : string) :
  list_ascii_of_string (s1 +:+ s2)
  = list_ascii_of_string s1 ++ list_ascii_of_string s2.
Proof. induction s1 as [|c s1 IH]; [done|]. cbn. by rewrite <-IH. Qed.

Lemma list_ascii_of_string_inj (s1 s2 : string) :
  list_ascii_of_string s1 = list_ascii_of_string s2 → s1 = s2.
Proof.
  intros H. rewrite <-(string_of_list_ascii_of_string s1),
              <-(string_of_list_ascii_of_string s2). by rewrite H.
Qed.

Lemma BuildFQName_no_subsystem (ns name : string) :
  name ≠ "" →
  BuildFQName ns "" name = if decide (ns = "") then name else ns +:+ "_" +:+ name.
Proof.
  intros Hname. unfold BuildFQName.
  rewrite (decide_False (P := name = "")) by done.
  rewrite (decide_False (P := ns ≠ "" ∧ "" ≠ "")) by (by intros [_ ?]).
  destruct (decide (ns = "")) as [->|Hns].
  - rewrite (decide_False (P := "" ≠ "")) by (by intros ?).
    by rewrite (decide_False (P := "" ≠ "")) by (by intros ?).
  - by rewrite (decide_True (P := ns ≠ "")) by done.
Qed.

Lemma IsValidMetricName_app (ns suffix : string) :
  ns ≠ "" →
  forallb isMetricNameChar (list_ascii_of_string suffix) = true →
  IsValidMetricName (ns +:+ suffix) = IsValidMetricName ns.
Proof.
  destruct ns as [|c ns]; [done|]. intros _ Hs.
  change (String c ns +:+ suffix) with (String c (ns +:+ suffix)).
  unfold IsValidMetricName.
  by rewrite list_ascii_of_string_app, forallb_app, Hs, andb_true_r.
Qed.

(** A key of [descs] ends in [suffix] only when it is [key]. *)
Lemma descs_key_suffix (suffix key ns name : string) (desc : prometheus_Desc) :
  Forall (λ kv : string * prometheus_Desc,
            kv.1 = key
            ∨ ¬ list_ascii_of_string suffix `suffix_of` list_ascii_of_string kv.1)
         descsList →
  descs !! name = Some desc → name = ns +:+ suffix → name = key.
Proof.
  intros Hall Hin%descs_lookup_descsList ->. rewrite Forall_forall in Hall.
  destruct (Hall _ Hin) as [?|Hno]; [done|]. destruct Hno.
  exists (list_ascii_of_string ns). apply list_ascii_of_string_app.
Qed.

Lemma gauge_name_in_descs (name key ns : string) :
  name ≠ "" →
  descs !! name = None →
  descs !! ("_" +:+ name) = None →
  Forall (λ kv : string * prometheus_Desc,
            kv.1 = key
            ∨ ¬ list_ascii_of_string ("_" +:+ name) `suffix_of` list_ascii_of_string kv.1)
         descsList →
  is_Some (descs !! key) →
  is_Some (descs !! BuildFQName ns "" name) ↔ ns +:+ "_" +:+ name = key.
Proof.
  intros Hname Hbare Hunder Hall Hkey. rewrite BuildFQName_no_subsystem by done.
  destruct (decide (ns = "")) as [->|Hns].
  - rewrite Hbare. split; [by intros [? ?]|]. intros <-.
    change ("" +:+ "_" +:+ name) with ("_" +:+ name) in Hkey.
    rewrite Hunder in Hkey. by destruct Hkey.
  - split; [|by intros ->]. intros [desc Hdesc].
    by apply (descs_key_suffix ("_" +:+ name) key ns _ desc Hall Hdesc).
Qed.

(** [descs] holds the names [NewSSLExporter] gives the two gauges when the
    namespace of the options is [ssl_exporter], and only then: with another
    namespace [Collect] finds no descriptor for the families of the two
    gauges. *)
Theorem probe_gauges_known_iff_namespace (opts : Options) :
  let e := NewSSLExporter opts in
  (is_Some (descs !! gauge_Name (probeSuccess e)) ↔ Namespace opts = "ssl_exporter")
  ∧ (is_Some (descs !! vec_Name (proberType e)) ↔ Namespace opts = "ssl_exporter").
Proof.
  cbv zeta. cbn [NewSSLExporter probeSuccess proberType gauge_Name vec_Name]. split.
  - rewrite (gauge_name_in_descs "probe_success" "ssl_exporter_probe_success");
      [|done|by vm_compute|by vm_compute
       |refine (bool_decide_unpack _ _); vm_compute; reflexivity
       |by vm_compute; eauto].
    split; [|by intros ->].
    intros H. change "ssl_exporter_probe_success"
                with ("ssl_exporter" +:+ "_probe_success") in H.
    apply list_ascii_of_string_inj.
    apply (f_equal list_ascii_of_string) in H.
    rewrite !list_ascii_of_string_app in H. by apply app_inv_tail in H.
  - rewrite (gauge_name_in_descs "prober" "ssl_exporter_prober");
      [|done|by vm_compute|by vm_compute
       |refine (bool_decide_unpack _ _); vm_compute; reflexivity
       |by vm_compute; eauto].
    split; [|by intros ->].
    intros H. change "ssl_exporter_prober" with ("ssl_exporter" +:+ "_prober") in H.
    apply list_ascii_of_string_inj.
    apply (f_equal list_ascii_of_string) in H.
    rewrite !list_ascii_of_string_app in H. by apply app_inv_tail in H.
Qed.

(** On an exporter made by [NewSSLExporter], registering the two gauges
    panics when the namespace of the options is not empty and not a valid
    metric name, and only then. *)
Theorem NewSSLExporter_gauges_register_iff (opts : Options) :
  MustRegister_panics (NewSSLExporter opts)
  = negb (bool_decide (Namespace opts = "") || IsValidMetricName (Namespace opts)).
Proof.
  unfold MustRegister_panics.
  cbn [NewSSLExporter probeSuccess proberType gauge_Name vec_Name].
  rewrite !BuildFQName_no_subsystem by done.
  destruct (decide (Namespace opts = "")) as [->|Hns]; [done|].
  rewrite (bool_decide_eq_false_2 (Namespace opts = "")) by done.
  rewrite !IsValidMetricName_app by done.
  rewrite bool_decide_eq_false_2; [by destruct (IsValidMetricName _)|].
  intros H. apply (f_equal list_ascii_of_string) in H.
  rewrite !list_ascii_of_string_app in H. by apply app_inv_head in H.
Qed.

#[local] Opaque descs labelOrder.

Section more_properties.
Variable quickSort_func : ∀ A : Type, (A → A → bool) → list A → list A.
Variable Probers : gmap string ProbeFn.

(** ** [sort.Slice] on the slices [Collect] sorts *)

Lemma sort_Slice_small_Permutation {A} (x : list A) less :
  length x ≤ 12 → sort_Slice quickSort_func x less ≡ₚ x.
Proof.
  intros Hlen. unfold sort_Slice. repeat case_decide; [lia| |done].
  by rewrite insertionSort_func_Permutation, shellPass_Permutation.
Qed.

(** A slice of at most 12 elements is sorted by the Shell pass and the
    insertion sort alone: the result is a permutation of the slice in
    ascending order of the key, and for at most 6 elements the elements of
    one key keep their order. *)
Theorem sort_Slice_small_slices {A} (key : A → Z) (x : list A) :
  length x ≤ 12 →
  let sorted := sort_Slice quickSort_func x (λ a b, bool_decide (key a < key b)%Z) in
  sorted ≡ₚ x
  ∧ StronglySorted (λ a b, key a ≤ key b)%Z sorted
  ∧ (length x ≤ 6 →
     ∀ k, filter (λ a, key a = k) sorted = filter (λ a, key a = k) x).
Proof.
  intros Hlen sorted. split; [by apply sort_Slice_small_Permutation|].
  split; [by apply sort_Slice_sorted|].
  intros Hshort k. by apply sort_Slice_stable.
Qed.

(** ** [Describe] *)

(** [Describe] sends the 19 descriptors of [descs], each once; their
    fully-qualified names are valid metric names and differ from one
    another. *)
Theorem Describe_sends_every_descriptor_once (e : Exporter)
    (ch : list prometheus_Desc) :
  ∃ sent,
    Describe e ch = ch ++ sent
    ∧ sent ≡ₚ descsList.*2
    ∧ length sent = 19
    ∧ NoDup (fqName <$> sent)
    ∧ Forall (λ desc, IsValidMetricName (fqName desc) = true) sent.
Proof.
  exists (map_to_list descs).*2. split; [done|].
  assert (Hp : (map_to_list descs).*2 ≡ₚ descsList.*2) by by rewrite descs_to_list.
  split; [done|]. rewrite Hp. clear Hp. split; [reflexivity|]. split.
  - refine (bool_decide_unpack _ _). vm_compute. reflexivity.
  - refine (bool_decide_unpack _ _). vm_compute. reflexivity.
Qed.

(** ** What [Collect] sends *)

Lemma forEach_world_of_ind {X} (I : World → Prop) (body : World → X → Outcome)
    (xs : list X) (w : World) :
  (∀ w x, x ∈ xs → I w → I (world_of (body w x))) →
  I w → I (world_of (forEach body w xs)).
Proof.
  revert w. induction xs as [|x xs IH]; intros w Hbody Hw; [done|].
  cbn [forEach]. specialize (Hbody w x (list_elem_of_here _ _) Hw) as Hx.
  destruct (body w x) as [w'|w'] eqn:Heq; [|done].
  apply IH; [|done]. intros w0 x0 Hin. apply Hbody. by apply list_elem_of_further.
Qed.

Lemma remapMetric_ch (Q : prometheus_Metric → Prop) mf w m :
  (∀ desc value labelValues,
     descs !! mf_Name mf = Some desc →
     length labelValues = length (variableLabels desc) →
     Q {| cm_desc := desc; cm_valType := GaugeValue; cm_val := value;
          cm_labelValues := labelValues |}) →
  Forall Q (ch w) → Forall Q (ch (world_of (remapMetric quickSort_func mf w m))).
Proof.
  intros HQ Hw. unfold remapMetric.
  destruct (descs !! mf_Name mf) as [desc|] eqn:Hdesc; [|exact Hw].
  destruct (m_Gauge m) as [value|]; [|exact Hw].
  unfold NewConstMetric. case_decide as Hlen; [|exact Hw].
  cbn [world_of Send ch]. apply Forall_app. split; [exact Hw|].
  apply Forall_singleton. by apply HQ.
Qed.

Lemma remapFamilies_ch (Q : prometheus_Metric → Prop) fams w :
  (∀ desc value labelValues name,
     descs !! name = Some desc →
     length labelValues = length (variableLabels desc) →
     Q {| cm_desc := desc; cm_valType := GaugeValue; cm_val := value;
          cm_labelValues := labelValues |}) →
  Forall Q (ch w) → Forall Q (ch (world_of (remapFamilies quickSort_func w fams))).
Proof.
  intros HQ. unfold remapFamilies.
  apply (forEach_world_of_ind (λ w, Forall Q (ch w))).
  intros w1 mf _. unfold remapFamily.
  apply (forEach_world_of_ind (λ w, Forall Q (ch w))).
  intros w2 m _. apply remapMetric_ch. intros desc value lvs. apply HQ.
Qed.

Lemma scrapeTarget_ch (Q : prometheus_Metric → Prop) w target :
  (∀ desc value labelValues name,
     descs !! name = Some desc →
     length labelValues = length (variableLabels desc) →
     Q {| cm_desc := desc; cm_valType := GaugeValue; cm_val := value;
          cm_labelValues := labelValues |}) →
  Forall Q (ch w) →
  Forall Q (ch (world_of (scrapeTarget quickSort_func Probers w target))).
Proof.
  intros HQ Hw. unfold scrapeTarget.
  destruct (resolve _ _ _) as [entry|[module probeFunc]]; [exact Hw|].
  destruct (MustRegister_panics _); [exact Hw|].
  destruct (probeTarget _ _ _ _) as [[e' registry] err].
  destruct (Gather e' registry) as [gerr|metricFams].
  - by destruct err.
  - apply remapFamilies_ch; [exact HQ|]. by destruct err.
Qed.

(** Every metric [Collect] sends, up to a panic too, is a gauge metric on a
    descriptor that [Describe] sends, with one label value per variable
    label of the descriptor. *)
Theorem Collect_sends_described_metrics (e : Exporter) :
  Forall (λ metric,
            cm_desc metric ∈ Describe e []
            ∧ cm_valType metric = GaugeValue
            ∧ length (cm_labelValues metric)
              = length (variableLabels (cm_desc metric)))
         (ch (world_of (Collect quickSort_func Probers e))).
Proof.
  unfold Collect.
  apply (forEach_world_of_ind (λ w, Forall _ (ch w))); [|by apply Forall_nil].
  intros w target _. apply scrapeTarget_ch.
  intros desc value lvs name Hname Hlen. cbn [cm_desc cm_valType cm_labelValues].
  split; [|done]. unfold Describe. rewrite app_nil_l. apply descs_elem_of. eauto.
Qed.

(** ** Label values and label names *)

(** When the label names of a raw gauge metric are those of its family's
    descriptor, in any order, the canonical metric is sent and gives each
    variable label of the descriptor the value the raw metric has for it. *)
Theorem remapMetric_aligns_label_values (mf : dto_MetricFamily) (w : World)
    (m : dto_Metric) (desc : prometheus_Desc) (value : float) :
  descs !! mf_Name mf = Some desc →
  lp_Name <$> m_Label m ≡ₚ variableLabels desc →
  m_Gauge m = Some value →
  ∃ sorted,
    sorted ≡ₚ m_Label m
    ∧ lp_Name <$> sorted = variableLabels desc
    ∧ remapMetric quickSort_func mf w m
      = Returns (Send w {| cm_desc := desc; cm_valType := GaugeValue;
                           cm_val := value;
                           cm_labelValues := lp_Value <$> sorted |}).
Proof.
  intros Hdesc Hnames Hgauge.
  assert (Hlen : length (m_Label m) = length (variableLabels desc)).
  { rewrite <-Hnames. by rewrite length_fmap. }
  assert (Hsmall : length (m_Label m) ≤ 12).
  { rewrite Hlen. apply descs_at_most_10_labels in Hdesc. lia. }
  exists (sort_Slice quickSort_func (m_Label m) labelLess).
  assert (Hperm : sort_Slice quickSort_func (m_Label m) labelLess ≡ₚ m_Label m)
    by by apply sort_Slice_small_Permutation.
  split; [done|]. split.
  - apply (sorted_by_key_unique labelOrder_at).
    + apply (StronglySorted_fmap lp_Name
               (λ a b, labelOrder_at (lp_Name a) ≤ labelOrder_at (lp_Name b))%Z);
        [done|].
      by apply (sort_Slice_sorted quickSort_func (λ a, labelOrder_at (lp_Name a))).
    + by apply (descs_labels_ascending (mf_Name mf)).
    + by rewrite Hperm.
  - unfold remapMetric. rewrite Hdesc, Hgauge. unfold NewConstMetric.
    rewrite decide_True; [done|].
    by rewrite length_fmap, (Permutation_length Hperm).
Qed.

(** ** What a target's output depends on *)

Lemma with_exporter_id w : with_exporter w (exporter w) = w.
Proof. by destruct w. Qed.

Lemma extend_with_exporter w e1 ms1 ls1 e2 ms2 ls2 :
  extend (with_exporter (extend (with_exporter w e1) ms1 ls1) e2) ms2 ls2
  = extend (with_exporter w e2) (ms1 ++ ms2) (ls1 ++ ls2).
Proof. unfold extend, with_exporter. cbn. by rewrite !app_assoc. Qed.

(** The body of the loop reads the exporter of the state only, and adds to
    what was sent and logged. *)
Lemma scrapeTarget_trace e target :
  ∃ panics e' metrics entries,
    ∀ w, exporter w = e →
      scrapeTarget quickSort_func Probers w target
      = ends panics (extend (with_exporter w e') metrics entries).
Proof.
  destruct (resolve Probers (SSLConfig (options e)) target)
    as [entry|[module probeFunc]] eqn:Hres.
  { exists false, e, [], [entry]. intros w <-.
    rewrite (scrapeTarget_unresolved _ _ _ _ _ Hres).
    by rewrite with_exporter_id, Log_extend. }
  destruct (MustRegister_panics e) eqn:Hmr.
  { exists true, (set_Registry e (MustRegister_partial e)), [], []. intros w <-.
    unfold scrapeTarget. rewrite Hres, Hmr. by rewrite extend_nil. }
  destruct (probeTarget e target module probeFunc) as [[e' registry] err] eqn:Hpt.
  destruct (Gather e' registry) as [gerr|metricFams] eqn:HG.
  - exists false, e', [],
      (match err with Some err => [LogError err] | None => [] end ++ [LogError gerr]).
    intros w <-.
    rewrite (scrapeTarget_resolved _ _ _ _ _ _ _ _ _ Hres Hmr Hpt).
    cbv zeta. rewrite HG. by rewrite Log_extend, extend_extend.
  - destruct (remapFamilies_trace quickSort_func metricFams) as (p & ms & ls & Htr).
    exists p, e', ms, (match err with Some err => [LogError err] | None => [] end ++ ls).
    intros w <-.
    rewrite (scrapeTarget_resolved _ _ _ _ _ _ _ _ _ Hres Hmr Hpt).
    cbv zeta. rewrite HG, Htr. by rewrite extend_extend.
Qed.

Lemma forEach_scrapeTarget_trace targets e :
  ∃ panics e' metrics entries,
    ∀ w, exporter w = e →
      forEach (scrapeTarget quickSort_func Probers) w targets
      = ends panics (extend (with_exporter w e') metrics entries).
Proof.
  revert e. induction targets as [|target targets IH]; intros e.
  { exists false, e, [], []. intros w <-. cbn [forEach ends].
    by rewrite with_exporter_id, extend_nil. }
  destruct (scrapeTarget_trace e target) as (p1 & e1 & ms1 & ls1 & H1).
  destruct p1.
  { exists true, e1, ms1, ls1. intros w Hw. cbn [forEach]. by rewrite (H1 w Hw). }
  destruct (IH e1) as (p2 & e2 & ms2 & ls2 & H2).
  exists p2, e2, (ms1 ++ ms2), (ls1 ++ ls2). intros w Hw.
  cbn [forEach]. rewrite (H1 w Hw). cbn [ends].
  rewrite (H2 (extend (with_exporter w e1) ms1 ls1) eq_refl).
  by rewrite extend_with_exporter.
Qed.

Lemma forEach_from_initial w targets :
  let o := forEach (scrapeTarget quickSort_func Probers) (initial (exporter w)) targets in
  forEach (scrapeTarget quickSort_func Probers) w targets
  = ends (is_panic o)
         (extend (with_exporter w (exporter (world_of o)))
                 (ch (world_of o)) (logged (world_of o))).
Proof.
  destruct (forEach_scrapeTarget_trace targets (exporter w)) as (p & e' & ms & ls & H).
  cbv zeta. rewrite (H w eq_refl), (H (initial (exporter w)) eq_refl).
  by rewrite is_panic_ends, world_of_ends.
Qed.

Lemma collect_ext e e' c :
  probeSuccess e = probeSuccess e' → proberType e = proberType e' →
  collect e c = collect e' c.
Proof. intros Hg Hv. destruct c; cbn [collect]; by rewrite ?Hg, ?Hv. Qed.

Lemma Gather_ext e e' r :
  probeSuccess e = probeSuccess e' → proberType e = proberType e' →
  Gather e r = Gather e' r.
Proof.
  intros Hg Hv. unfold Gather.
  assert (Heq : flat_map (collect e) (collectors r)
                = flat_map (collect e') (collectors r)).
  { induction (collectors r) as [|c cs IH]; [done|].
    cbn [flat_map]. by rewrite IH, (collect_ext e e' c Hg Hv). }
  by rewrite Heq.
Qed.

Lemma scrapeTarget_alike ea eb target :
  reads_alike ea eb →
  let oa := scrapeTarget quickSort_func Probers (initial ea) target in
  let ob := scrapeTarget quickSort_func Probers (initial eb) target in
  is_panic oa = is_panic ob
  ∧ ch (world_of oa) = ch (world_of ob)
  ∧ logged (world_of oa) = logged (world_of ob)
  ∧ reads_alike (exporter (world_of oa)) (exporter (world_of ob)).
Proof.
  intros (Hn & Hv & Hc). cbv zeta. unfold scrapeTarget.
  cbn [exporter initial]. rewrite Hc.
  destruct (resolve Probers (SSLConfig (options eb)) target)
    as [entry|[module probeFunc]]; [done|].
  assert (Hmr : MustRegister_panics ea = MustRegister_panics eb)
    by (unfold MustRegister_panics; by rewrite Hn, Hv).
  rewrite Hmr. destruct (MustRegister_panics eb); [done|].
  destruct (probeTarget_spec ea target module probeFunc)
    as (ea' & -> & _ & _ & _ & _ & _ & Hca & _ & _ & Hna & Hva & Hvna & Hvla & Hvca).
  destruct (probeTarget_spec eb target module probeFunc)
    as (eb' & -> & _ & _ & _ & _ & _ & Hcb & _ & _ & Hnb & Hvb & Hvnb & Hvlb & Hvcb).
  cbv beta iota.
  assert (Hg' : probeSuccess ea' = probeSuccess eb').
  { destruct (probeSuccess ea'), (probeSuccess eb'). cbn in *. congruence. }
  assert (Hv' : proberType ea' = proberType eb').
  { destruct (proberType ea'), (proberType eb'). cbn in *. congruence. }
  assert (Hpost : reads_alike ea' eb').
  { unfold reads_alike. rewrite Hg', Hv', Hca, Hcb. done. }
  rewrite (Gather_ext ea' eb' _ Hg' Hv').
  destruct (Gather eb' _) as [gerr|metricFams].
  - by destruct (probe_err _).
  - destruct (remapFamilies_trace quickSort_func metricFams) as (p & ms & ls & Htr).
    rewrite !Htr, !is_panic_ends, !world_of_ends.
    by destruct (probe_err _).
Qed.

Lemma scrapeTarget_from_initial w target :
  let o := scrapeTarget quickSort_func Probers (initial (exporter w)) target in
  scrapeTarget quickSort_func Probers w target
  = ends (is_panic o)
         (extend (with_exporter w (exporter (world_of o)))
                 (ch (world_of o)) (logged (world_of o))).
Proof.
  destruct (scrapeTarget_trace (exporter w) target) as (p & e' & ms & ls & H).
  cbv zeta. rewrite (H w eq_refl), (H (initial (exporter w)) eq_refl).
  by rewrite is_panic_ends, world_of_ends.
Qed.

(** What the body of the loop sends and logs for a target, and whether it
    panics, depends on the exporter through the names of its two gauges,
    the prober vector and the module configuration only: not on the
    registry an earlier target left in [e.options.Registry] with what its
    prober registered, nor on the value the probe-success gauge has. *)
Theorem target_output_ignores_earlier_registry (wa wb : World) (target : SSLTarget) :
  reads_alike (exporter wa) (exporter wb) →
  ∃ panics metrics entries ea eb,
    scrapeTarget quickSort_func Probers wa target
    = ends panics (extend (with_exporter wa ea) metrics entries)
    ∧ scrapeTarget quickSort_func Probers wb target
      = ends panics (extend (with_exporter wb eb) metrics entries)
    ∧ reads_alike ea eb.
Proof.
  intros Halike.
  destruct (scrapeTarget_alike _ _ target Halike) as (Hp & Hch & Hlog & Hpost).
  eexists _, _, _, _, _. split; [apply scrapeTarget_from_initial|]. split; [|exact Hpost].
  rewrite (scrapeTarget_from_initial wb). by rewrite Hp, Hch, Hlog.
Qed.

Lemma forEach_scrapeTarget_alike targets ea eb :
  reads_alike ea eb →
  let oa := forEach (scrapeTarget quickSort_func Probers) (initial ea) targets in
  let ob := forEach (scrapeTarget quickSort_func Probers) (initial eb) targets in
  is_panic oa = is_panic ob
  ∧ ch (world_of oa) = ch (world_of ob)
  ∧ logged (world_of oa) = logged (world_of ob)
  ∧ reads_alike (exporter (world_of oa)) (exporter (world_of ob)).
Proof.
  revert ea eb. induction targets as [|target targets IH]; intros ea eb Halike; [done|].
  cbv zeta. cbn [forEach].
  destruct (scrapeTarget_alike _ _ target Halike) as (Hp & Hch & Hlog & Hpost).
  destruct (scrapeTarget quickSort_func Probers (initial ea) target) as [wa|wa];
    destruct (scrapeTarget quickSort_func Probers (initial eb) target) as [wb|wb];
    try discriminate Hp; [|done].
  cbn [world_of] in Hch, Hlog, Hpost.
  rewrite (forEach_from_initial wa), (forEach_from_initial wb).
  destruct (IH _ _ Hpost) as (Hp2 & Hch2 & Hlog2 & Hpost2).
  rewrite !is_panic_ends, !world_of_ends. cbn [extend with_exporter ch logged exporter].
  by rewrite Hp2, Hch2, Hlog2, Hch, Hlog.
Qed.

(** ** The exporter after a target, and after [Collect] *)

(** The body of the loop changes the exporter in [Registry], in the value
    of the probe-success gauge and in the children of the prober vector. *)
Lemma scrapeTarget_exporter w target :
  let e := exporter w in
  let e' := exporter (world_of (scrapeTarget quickSort_func Probers w target)) in
  gauge_Name (probeSuccess e') = gauge_Name (probeSuccess e)
  ∧ vec_Name (proberType e') = vec_Name (proberType e)
  ∧ vec_label (proberType e') = vec_label (proberType e)
  ∧ SSLConfig (options e') = SSLConfig (options e)
  ∧ SSLTargets (options e') = SSLTargets (options e)
  ∧ vec_children (proberType e')
    = match resolve Probers (SSLConfig (options e)) target with
      | inr (module, _) =>
          if MustRegister_panics e then vec_children (proberType e)
          else <[Prober module := 1%float]> (vec_children (proberType e))
      | inl _ => vec_children (proberType e)
      end.
Proof.
  cbv zeta. unfold scrapeTarget.
  destruct (resolve Probers _ target) as [entry|[module probeFunc]]; [done|].
  destruct (MustRegister_panics (exporter w)); [done|].
  destruct (probeTarget_spec (exporter w) target module probeFunc)
    as (e' & -> & _ & _ & _ & _ & Ht & Hc & _ & _ & Hn & _ & Hvn & Hvl & Hvc).
  cbv beta iota.
  assert (Hw1 : ∀ err : option error,
            exporter (match err with
                      | Some err => Log (with_exporter w e') (LogError err)
                      | None => with_exporter w e'
                      end) = e') by (by intros [?|]).
  destruct (Gather e' _) as [gerr|metricFams].
  - cbn [world_of Log exporter]. rewrite Hw1. done.
  - destruct (remapFamilies_trace quickSort_func metricFams) as (p & ms & ls & Htr).
    rewrite Htr, world_of_ends. cbn [extend exporter]. rewrite Hw1. done.
Qed.

Lemma childrenAfter_cons cfg children target targets :
  childrenAfter Probers cfg children (target :: targets)
  = childrenAfter Probers cfg
      (match resolve Probers cfg target with
       | inr (module, _) => <[Prober module := 1%float]> children
       | inl _ => children
       end) targets.
Proof. done. Qed.

Lemma childrenAfter_keeps cfg children targets k :
  is_Some (children !! k) → is_Some (childrenAfter Probers cfg children targets !! k).
Proof.
  revert children. induction targets as [|target targets IH]; intros children Hk; [done|].
  rewrite childrenAfter_cons. apply IH.
  destruct (resolve Probers cfg target) as [?|[module ?]]; [done|].
  destruct (decide (Prober module = k)) as [->|Hne].
  - rewrite lookup_insert_eq. eauto.
  - by rewrite lookup_insert_ne.
Qed.

Lemma childrenAfter_keeps_1 cfg children targets k :
  children !! k = Some 1%float →
  childrenAfter Probers cfg children targets !! k = Some 1%float.
Proof.
  revert children. induction targets as [|target targets IH]; intros children Hk; [done|].
  rewrite childrenAfter_cons. apply IH.
  destruct (resolve Probers cfg target) as [?|[module ?]]; [done|].
  destruct (decide (Prober module = k)) as [->|Hne].
  - by rewrite lookup_insert_eq.
  - by rewrite lookup_insert_ne.
Qed.

Lemma childrenAfter_resolved cfg children targets target module probeFunc :
  target ∈ targets →
  resolve Probers cfg target = inr (module, probeFunc) →
  childrenAfter Probers cfg children targets !! Prober module = Some 1%float.
Proof.
  revert children. induction targets as [|t targets IH]; intros children Hin Hres;
    [by apply elem_of_nil in Hin|].
  rewrite childrenAfter_cons. apply elem_of_cons in Hin as [<-|Hin].
  - rewrite Hres. apply childrenAfter_keeps_1. by rewrite lookup_insert_eq.
  - by apply IH.
Qed.

Lemma forEach_scrapeTarget_children targets w :
  let o := forEach (scrapeTarget quickSort_func Probers) w targets in
  is_panic o = false →
  vec_children (proberType (exporter (world_of o)))
  = childrenAfter Probers (SSLConfig (options (exporter w)))
      (vec_children (proberType (exporter w))) targets.
Proof.
  revert w. induction targets as [|target targets IH]; intros w; [done|].
  cbv zeta. cbn [forEach]. rewrite childrenAfter_cons.
  destruct (scrapeTarget_exporter w target) as (_ & _ & _ & Hc & _ & Hch).
  destruct (scrapeTarget quickSort_func Probers w target) as [w'|w'] eqn:Hstep;
    [|discriminate].
  cbn [world_of] in Hc, Hch. intros Hp. rewrite (IH w' Hp), Hc, Hch.
  destruct (resolve Probers _ target) as [entry|[module probeFunc]] eqn:Hres; [done|].
  destruct (MustRegister_panics (exporter w)) eqn:Hmr; [|done].
  unfold scrapeTarget in Hstep. rewrite Hres, Hmr in Hstep. discriminate Hstep.
Qed.

Lemma forEach_scrapeTarget_grows targets w k :
  is_Some (vec_children (proberType (exporter w)) !! k) →
  is_Some (vec_children (proberType (exporter (world_of
             (forEach (scrapeTarget quickSort_func Probers) w targets)))) !! k).
Proof.
  apply (forEach_world_of_ind
           (λ w, is_Some (vec_children (proberType (exporter w)) !! k))).
  intros w0 target _ Hk.
  destruct (scrapeTarget_exporter w0 target) as (_ & _ & _ & _ & _ & ->).
  destruct (resolve Probers _ target) as [entry|[module probeFunc]]; [done|].
  destruct (MustRegister_panics (exporter w0)); [done|].
  destruct (decide (Prober module = k)) as [->|Hne].
  - rewrite lookup_insert_eq. eauto.
  - by rewrite lookup_insert_ne.
Qed.

(** [Collect] never removes a child of the prober vector, and when it
    completes the children are those it started with and, set to 1, one
    for the prober kind of each target that resolved: the vector keeps the
    prober kinds of all targets of all calls. *)
Theorem Collect_keeps_prober_children (e : Exporter) :
  let o := Collect quickSort_func Probers e in
  let children' := vec_children (proberType (exporter (world_of o))) in
  (∀ k, is_Some (vec_children (proberType e) !! k) → is_Some (children' !! k))
  ∧ (is_panic o = false →
     children' = childrenAfter Probers (SSLConfig (options e))
                   (vec_children (proberType e)) (SSLTargets (options e)))
  ∧ (is_panic o = false →
     ∀ target module probeFunc,
       target ∈ SSLTargets (options e) →
       resolve Probers (SSLConfig (options e)) target = inr (module, probeFunc) →
       children' !! Prober module = Some 1%float).
Proof.
  cbv zeta. unfold Collect. split; [|split].
  - intros k Hk. by apply forEach_scrapeTarget_grows.
  - intros Hp. by rewrite forEach_scrapeTarget_children.
  - intros Hp target module probeFunc Hin Hres.
    rewrite forEach_scrapeTarget_children; [|done].
    by eapply childrenAfter_resolved.
Qed.

(** ** [Collect] called again *)

Lemma prometheus_GaugeVec_eq (v1 v2 : prometheus_GaugeVec) :
  vec_Name v1 = vec_Name v2 → vec_label v1 = vec_label v2 →
  vec_children v1 = vec_children v2 → v1 = v2.
Proof. destruct v1, v2. cbn. by intros -> -> ->. Qed.

Lemma forEach_scrapeTarget_names targets w :
  let e' := exporter (world_of (forEach (scrapeTarget quickSort_func Probers) w targets)) in
  gauge_Name (probeSuccess e') = gauge_Name (probeSuccess (exporter w))
  ∧ vec_Name (proberType e') = vec_Name (proberType (exporter w))
  ∧ vec_label (proberType e') = vec_label (proberType (exporter w))
  ∧ SSLConfig (options e') = SSLConfig (options (exporter w))
  ∧ SSLTargets (options e') = SSLTargets (options (exporter w)).
Proof.
  cbv zeta.
  apply (forEach_world_of_ind
           (λ w', gauge_Name (probeSuccess (exporter w')) = gauge_Name (probeSuccess (exporter w))
                  ∧ vec_Name (proberType (exporter w')) = vec_Name (proberType (exporter w))
                  ∧ vec_label (proberType (exporter w')) = vec_label (proberType (exporter w))
                  ∧ SSLConfig (options (exporter w')) = SSLConfig (options (exporter w))
                  ∧ SSLTargets (options (exporter w')) = SSLTargets (options (exporter w))));
    [|done].
  intros w0 target _ (H1 & H2 & H3 & H4 & H5).
  destruct (scrapeTarget_exporter w0 target) as (G1 & G2 & G3 & G4 & G5 & _).
  by rewrite G1, G2, G3, G4, G5.
Qed.

(** When the prober vector holds, at 1, the child of the prober kind of
    every target that resolves, the loop leaves the vector as it is. *)
Lemma forEach_scrapeTarget_settled targets w :
  (∀ target module probeFunc,
     target ∈ targets →
     resolve Probers (SSLConfig (options (exporter w))) target = inr (module, probeFunc) →
     vec_children (proberType (exporter w)) !! Prober module = Some 1%float) →
  proberType (exporter (world_of (forEach (scrapeTarget quickSort_func Probers) w targets)))
  = proberType (exporter w).
Proof.
  intros Hsettled.
  cut (proberType (exporter (world_of (forEach (scrapeTarget quickSort_func Probers) w targets)))
       = proberType (exporter w)
       ∧ SSLConfig (options (exporter (world_of
           (forEach (scrapeTarget quickSort_func Probers) w targets))))
         = SSLConfig (options (exporter w))); [by intros [? _]|].
  apply (forEach_world_of_ind
           (λ w', proberType (exporter w') = proberType (exporter w)
                  ∧ SSLConfig (options (exporter w')) = SSLConfig (options (exporter w))));
    [|done].
  intros w0 target Hin [Hv Hc].
  destruct (scrapeTarget_exporter w0 target) as (_ & G2 & G3 & G4 & _ & G6).
  split; [|by rewrite G4]. rewrite <-Hv.
  apply prometheus_GaugeVec_eq; [done|done|]. rewrite G6, Hc. clear G6.
  destruct (resolve Probers (SSLConfig (options (exporter w))) target)
    as [entry|[module probeFunc]] eqn:Hres; [done|].
  destruct (MustRegister_panics (exporter w0)); [done|].
  apply insert_id. rewrite Hv. by eapply Hsettled.
Qed.

Lemma Collect_alike e1 e' :
  (∀ target module probeFunc,
     target ∈ SSLTargets (options e1) →
     resolve Probers (SSLConfig (options e1)) target = inr (module, probeFunc) →
     vec_children (proberType e1) !! Prober module = Some 1%float) →
  reads_alike e1 e' →
  SSLTargets (options e') = SSLTargets (options e1) →
  let o1 := Collect quickSort_func Probers e1 in
  let o' := Collect quickSort_func Probers e' in
  is_panic o' = is_panic o1
  ∧ ch (world_of o') = ch (world_of o1)
  ∧ logged (world_of o') = logged (world_of o1)
  ∧ reads_alike e1 (exporter (world_of o'))
  ∧ SSLTargets (options (exporter (world_of o'))) = SSLTargets (options e1).
Proof.
  intros Hsettled Halike Htargets. cbv zeta. unfold Collect. rewrite Htargets.
  change {| exporter := e1; ch := []; logged := [] |} with (initial e1).
  change {| exporter := e'; ch := []; logged := [] |} with (initial e').
  destruct (forEach_scrapeTarget_alike (SSLTargets (options e1)) e1 e' Halike)
    as (Hp & Hch & Hlog & Hn & Hv & Hc).
  split; [done|]. split; [done|]. split; [done|].
  destruct (forEach_scrapeTarget_names (SSLTargets (options e1)) (initial e1))
    as (G1 & _ & _ & G4 & _).
  destruct (forEach_scrapeTarget_names (SSLTargets (options e1)) (initial e'))
    as (_ & _ & _ & _ & G5').
  pose proof (forEach_scrapeTarget_settled (SSLTargets (options e1)) (initial e1)
                Hsettled) as Hs.
  cbn [initial exporter] in G1, G4, G5', Hs.
  split; [|by rewrite G5'].
  unfold reads_alike. by rewrite <-Hn, <-Hv, <-Hc, G1, G4, Hs.
Qed.

(** When a call of [Collect] has completed, every later call, on the same
    exporter with the same probers, sends and logs what the call after it
    did, and panics when that one does. *)
Theorem Collect_repeats_from_second_call (e : Exporter) (n : nat) :
  is_panic (Collect quickSort_func Probers e) = false →
  let second := Collect quickSort_func Probers (CollectAgain quickSort_func Probers 1 e) in
  let later := Collect quickSort_func Probers (CollectAgain quickSort_func Probers (S n) e) in
  ch (world_of later) = ch (world_of second)
  ∧ logged (world_of later) = logged (world_of second)
  ∧ is_panic later = is_panic second.
Proof.
  intros Hp. cbv zeta.
  set (e1 := CollectAgain quickSort_func Probers 1 e).
  assert (He1 : e1 = exporter (world_of (Collect quickSort_func Probers e))) by done.
  assert (Hsettled : ∀ target module probeFunc,
            target ∈ SSLTargets (options e1) →
            resolve Probers (SSLConfig (options e1)) target = inr (module, probeFunc) →
            vec_children (proberType e1) !! Prober module = Some 1%float).
  { intros target module probeFunc. rewrite He1. unfold Collect in *.
    destruct (forEach_scrapeTarget_names (SSLTargets (options e))
                {| exporter := e; ch := []; logged := [] |}) as (_ & _ & _ & -> & ->).
    rewrite forEach_scrapeTarget_children; [|done]. cbn [exporter].
    apply childrenAfter_resolved. }
  assert (Hinv : reads_alike e1 (CollectAgain quickSort_func Probers (S n) e)
                 ∧ SSLTargets (options (CollectAgain quickSort_func Probers (S n) e))
                   = SSLTargets (options e1)).
  { induction n as [|n [IH1 IH2]]; [done|].
    destruct (Collect_alike e1 _ Hsettled IH1 IH2) as (_ & _ & _ & H1 & H2).
    done. }
  destruct Hinv as [H1 H2].
  destruct (Collect_alike e1 _ Hsettled H1 H2) as (G1 & G2 & G3 & _).
  done.
Qed.

(** ** [Collect] completes *)

Lemma Gather_gauges e registry metricFams regs :
  collectors registry = [TheProbeSuccess; TheProberType] ++ map Registered regs →
  Gather e registry = inr metricFams →
  (∀ mf m, mf ∈ regs → m ∈ mf_Metric mf → is_Some (m_Gauge m)) →
  ∀ mf m, mf ∈ metricFams → m ∈ mf_Metric mf → is_Some (m_Gauge m).
Proof.
  intros Hcs [Hperm _]%Gather_inr Hregs mf m Hmf Hm.
  rewrite Hperm, Hcs in Hmf. cbn [app flat_map] in Hmf.
  rewrite collect_Registered in Hmf.
  apply elem_of_app in Hmf as [Hmf|Hmf]; [|apply elem_of_app in Hmf as [Hmf|Hmf]].
  - cbn [collect] in Hmf. apply list_elem_of_singleton in Hmf as ->.
    cbn [mf_Metric] in Hm. apply list_elem_of_singleton in Hm as ->. by eexists.
  - cbn [collect] in Hmf.
    destruct (merge_sort _ _) as [|c cs]; [by apply elem_of_nil in Hmf|].
    apply list_elem_of_singleton in Hmf as ->. cbn [mf_Metric] in Hm.
    apply list_elem_of_fmap in Hm as (kv & -> & _). by eexists.
  - by eapply Hregs.
Qed.

(** C8 (as amended): for a target whose module and prober resolve, when the
    names of the two gauges register and the prober registered gauges only,
    the body of the loop completes: the probe-success gauge holds 1 if the
    probe function returned no error and 0 if it returned one; the error is
    logged, after what was logged before; and the loop goes on with the
    remaining targets. *)
Theorem C8_probe_success_follows_probe_error (w : World) (target : SSLTarget)
    (module : ssl_config_Module) (probeFunc : ProbeFn) :
  resolve Probers (SSLConfig (options (exporter w))) target = inr (module, probeFunc) →
  MustRegister_panics (exporter w) = false →
  (∀ mf m,
     mf ∈ probe_registered (probeFunc (target_Target target) module) →
     m ∈ mf_Metric mf → is_Some (m_Gauge m)) →
  ∃ w',
    scrapeTarget quickSort_func Probers w target = Returns w'
    ∧ gauge_value (probeSuccess (exporter w'))
      = match probe_err (probeFunc (target_Target target) module) with
        | None => 1%float
        | Some _ => 0%float
        end
    ∧ (∀ err, probe_err (probeFunc (target_Target target) module) = Some err →
              ∃ entries, logged w' = logged w ++ LogError err :: entries)
    ∧ ∀ targets,
        forEach (scrapeTarget quickSort_func Probers) w (target :: targets)
        = forEach (scrapeTarget quickSort_func Probers) w' targets.
Proof.
  intros Hres Hmr Hgauges.
  assert (Hret : ∃ w', scrapeTarget quickSort_func Probers w target = Returns w').
  { destruct (probeTarget_spec (exporter w) target module probeFunc)
      as (e' & Hpt & _).
    rewrite (scrapeTarget_resolved _ _ _ _ _ _ _ _ _ Hres Hmr Hpt). cbv zeta.
    destruct (Gather e' _) as [gerr|metricFams] eqn:HG; [by eexists|].
    apply remapFamilies_gauges.
    by apply (Gather_gauges e' (subRegistry target module probeFunc) metricFams
                (probe_registered (probeFunc (target_Target target) module))
                eq_refl HG). }
  destruct Hret as [w' Hret]. exists w'. split; [exact Hret|].
  exact (scrapeTarget_Returns_probeSuccess quickSort_func Probers
           w target module probeFunc w' Hres Hret).
Qed.

Lemma forEach_scrapeTarget_completes targets w :
  MustRegister_panics (exporter w) = false →
  (∀ target module probeFunc mf m,
     target ∈ targets →
     resolve Probers (SSLConfig (options (exporter w))) target = inr (module, probeFunc) →
     mf ∈ probe_registered (probeFunc (target_Target target) module) →
     m ∈ mf_Metric mf → is_Some (m_Gauge m)) →
  ∃ w', forEach (scrapeTarget quickSort_func Probers) w targets = Returns w'.
Proof.
  revert w. induction targets as [|target targets IH]; intros w Hmr Hgauges; [by eexists|].
  cbn [forEach].
  assert (Hstep : ∃ w', scrapeTarget quickSort_func Probers w target = Returns w').
  { destruct (resolve Probers (SSLConfig (options (exporter w))) target)
      as [entry|[module probeFunc]] eqn:Hres.
    { eexists. by apply scrapeTarget_unresolved. }
    destruct (probeTarget_spec (exporter w) target module probeFunc)
      as (e' & Hpt & _).
    rewrite (scrapeTarget_resolved _ _ _ _ _ _ _ _ _ Hres Hmr Hpt). cbv zeta.
    destruct (Gather e' _) as [gerr|metricFams] eqn:HG; [by eexists|].
    apply remapFamilies_gauges.
    apply (Gather_gauges e' (subRegistry target module probeFunc) metricFams
             (probe_registered (probeFunc (target_Target target) module)) eq_refl HG).
    intros mf m. apply (Hgauges target module probeFunc); [apply list_elem_of_here|done]. }
  destruct Hstep as [w' Hstep]. rewrite Hstep.
  destruct (scrapeTarget_exporter w target) as (G1 & G2 & _ & G4 & _).
  rewrite Hstep in G1, G2, G4. cbn [world_of] in G1, G2, G4.
  apply IH.
  - unfold MustRegister_panics in *. by rewrite G1, G2.
  - intros t module probeFunc mf m Hin. rewrite G4.
    apply Hgauges. by apply list_elem_of_further.
Qed.

(** [Collect] completes, with no panic, when the names of the two gauges
    are valid metric names and the probers of the targets register gauges
    only. *)
Theorem Collect_completes_on_gauges (e : Exporter) :
  MustRegister_panics e = false →
  (∀ target module probeFunc mf m,
     target ∈ SSLTargets (options e) →
     resolve Probers (SSLConfig (options e)) target = inr (module, probeFunc) →
     mf ∈ probe_registered (probeFunc (target_Target target) module) →
     m ∈ mf_Metric mf → is_Some (m_Gauge m)) →
  ∃ w', Collect quickSort_func Probers e = Returns w'.
Proof. intros Hmr Hgauges. by apply forEach_scrapeTarget_completes. Qed.

(** ** Targets that do not resolve, and a registry that does not gather *)

(** When no target resolves, [Collect] sends nothing and leaves the
    exporter as it is; it logs one entry per target, in their order. *)
Theorem Collect_on_unresolved_targets (e : Exporter) :
  Forall (λ target, ∃ entry, resolve Probers (SSLConfig (options e)) target = inl entry)
         (SSLTargets (options e)) →
  Collect quickSort_func Probers e
  = Returns {| exporter := e; ch := [];
               logged := omap (λ target,
                                 match resolve Probers (SSLConfig (options e)) target with
                                 | inl entry => Some entry
                                 | inr _ => None
                                 end) (SSLTargets (options e)) |}.
Proof.
  unfold Collect. generalize (SSLTargets (options e)). intros targets Hall.
  cut (∀ entries,
         forEach (scrapeTarget quickSort_func Probers)
                 {| exporter := e; ch := []; logged := entries |} targets
         = Returns {| exporter := e; ch := [];
                      logged := entries
                        ++ omap (λ target,
                                   match resolve Probers (SSLConfig (options e)) target with
                                   | inl entry => Some entry
                                   | inr _ => None
                                   end) targets |}).
  { intros H. apply (H []). }
  induction Hall as [|target targets [entry Hres] _ IH]; intros entries.
  { cbn. by rewrite app_nil_r. }
  cbn [forEach omap list_omap].
  rewrite (scrapeTarget_unresolved quickSort_func Probers
             {| exporter := e; ch := []; logged := entries |} target entry Hres).
  rewrite Hres. unfold Log; cbn [exporter ch logged]. rewrite IH.
  by rewrite <-app_assoc.
Qed.

(** When the sub-registry of a target does not gather, nothing is sent for
    the target, not the probe-success and prober metrics either; the error
    is logged, after the error of the probe if it returned one; the
    probe-success gauge and the prober vector are set all the same, and the
    loop goes on. *)
Theorem Gather_error_skips_target (w : World) (target : SSLTarget)
    (module : ssl_config_Module) (probeFunc : ProbeFn) (gerr : error) :
  resolve Probers (SSLConfig (options (exporter w))) target = inr (module, probeFunc) →
  MustRegister_panics (exporter w) = false →
  Gather (probeTarget (exporter w) target module probeFunc).1.1
         (probeTarget (exporter w) target module probeFunc).1.2 = inl gerr →
  ∃ w',
    scrapeTarget quickSort_func Probers w target = Returns w'
    ∧ ch w' = ch w
    ∧ logged w'
      = logged w
        ++ match probe_err (probeFunc (target_Target target) module) with
           | Some err => [LogError err]
           | None => []
           end ++ [LogError gerr]
    ∧ gauge_value (probeSuccess (exporter w'))
      = match probe_err (probeFunc (target_Target target) module) with
        | Some _ => 0%float
        | None => 1%float
        end
    ∧ vec_children (proberType (exporter w'))
      = <[Prober module := 1%float]> (vec_children (proberType (exporter w))).
Proof.
  intros Hres Hmr HG.
  destruct (probeTarget_spec (exporter w) target module probeFunc)
    as (e' & Hpt & _ & _ & _ & _ & _ & _ & _ & _ & _ & Hval & _ & _ & Hch).
  rewrite Hpt in HG. cbn [fst snd] in HG.
  rewrite (scrapeTarget_resolved _ _ _ _ _ _ _ _ _ Hres Hmr Hpt). cbv zeta.
  rewrite HG. eexists. split; [done|].
  cbn [Log extend with_exporter ch logged exporter].
  rewrite app_nil_r, <-app_assoc. done.
Qed.

(** ** The module and the prober of a target *)

(** A target resolves when the module table holds a module under the
    target's module name, the prober table holds the module's prober, and
    the target names no module or a default module is configured. The
    default module is not looked up: which one it is changes nothing. *)
Theorem resolve_reads_the_target_module (cfg : ssl_config_Config) (target : SSLTarget) :
  (∀ module probeFunc,
     resolve Probers cfg target = inr (module, probeFunc)
     ↔ Modules cfg !! target_Module target = Some module
       ∧ Probers !! Prober module = Some probeFunc
       ∧ (target_Module target = "" ∨ DefaultModule cfg ≠ ""))
  ∧ (resolve Probers cfg target = inl LogModuleParameterMustBeSet
     ↔ target_Module target ≠ "" ∧ DefaultModule cfg = "")
  ∧ ∀ default,
      DefaultModule cfg ≠ "" → default ≠ "" →
      resolve Probers {| DefaultModule := default; Modules := Modules cfg |} target
      = resolve Probers cfg target.
Proof.
  unfold resolve. cbn [DefaultModule Modules]. split; [|split].
  - intros module probeFunc.
    destruct (decide (target_Module target ≠ "")) as [Hm|Hm].
    + destruct (decide (DefaultModule cfg = "")) as [Hd|Hd].
      * rewrite decide_True by done. split; [done|]. intros (_ & _ & [?|?]); done.
      * rewrite decide_False by (by intros [_ ?]).
        destruct (Modules cfg !! target_Module target) as [module'|];
          [|split; [done|by intros [? _]]].
        destruct (Probers !! Prober module') as [probeFunc'|] eqn:Hp.
        -- split; [intros [= <- <-]; eauto|].
           intros ([= <-] & Hp' & _). rewrite Hp in Hp'. by injection Hp' as <-.
        -- split; [done|]. intros ([= <-] & Hp' & _). by rewrite Hp in Hp'.
    + rewrite decide_False by (by intros [? _]).
      apply dec_stable in Hm.
      destruct (Modules cfg !! target_Module target) as [module'|];
        [|split; [done|by intros [? _]]].
      destruct (Probers !! Prober module') as [probeFunc'|] eqn:Hp.
      * split; [intros [= <- <-]; eauto|].
        intros ([= <-] & Hp' & _). rewrite Hp in Hp'. by injection Hp' as <-.
      * split; [done|]. intros ([= <-] & Hp' & _). by rewrite Hp in Hp'.
  - destruct (decide (target_Module target ≠ "")) as [Hm|Hm].
    + destruct (decide (DefaultModule cfg = "")) as [Hd|Hd].
      * by rewrite decide_True by done.
      * rewrite decide_False by (by intros [_ ?]).
        split; [|by intros [_ ?]].
        destruct (Modules cfg !! target_Module target) as [module'|]; [|done].
        by destruct (Probers !! Prober module').
    + rewrite decide_False by (by intros [? _]).
      split; [|by intros [? _]].
      destruct (Modules cfg !! target_Module target) as [module'|]; [|done].
      by destruct (Probers !! Prober module').
  - intros default Hd Hdefault.
    destruct (decide (target_Module target ≠ "")) as [Hm|Hm].
    + by rewrite !decide_False by (by intros [_ ?]).
    + by rewrite !decide_False by (by intros [? _]).
Qed.

(** ** What is sent for a target *)

(** For a target that resolves and whose sub-registry gathers, what is
    sent, when the body of the loop completes, is, in some order, the
    canonical metric of every raw metric that has one: of the probe-success
    gauge, of the children of the prober vector and of the families the
    prober registered. *)
Theorem target_output_is_the_canonical_metrics (w : World) (target : SSLTarget)
    (module : ssl_config_Module) (probeFunc : ProbeFn)
    (metricFams : list dto_MetricFamily) (w' : World) :
  resolve Probers (SSLConfig (options (exporter w))) target = inr (module, probeFunc) →
  Gather (probeTarget (exporter w) target module probeFunc).1.1
         (probeTarget (exporter w) target module probeFunc).1.2 = inr metricFams →
  scrapeTarget quickSort_func Probers w target = Returns w' →
  let e' := (probeTarget (exporter w) target module probeFunc).1.1 in
  ∃ out,
    ch w' = ch w ++ out
    ∧ out ≡ₚ flat_map (λ mf, omap (canonical quickSort_func mf) (mf_Metric mf))
               (collect e' TheProbeSuccess ++ collect e' TheProberType
                ++ probe_registered (probeFunc (target_Target target) module)).
Proof.
  intros Hres HG Hret. cbv zeta.
  destruct (MustRegister_panics (exporter w)) eqn:Hmr.
  { unfold scrapeTarget in Hret. rewrite Hres, Hmr in Hret. discriminate Hret. }
  destruct (probeTarget_spec (exporter w) target module probeFunc) as (e' & Hpt & _).
  rewrite Hpt in HG |- *. cbn [fst snd] in HG |- *.
  rewrite (scrapeTarget_resolved _ _ _ _ _ _ _ _ _ Hres Hmr Hpt) in Hret.
  cbv zeta in Hret. rewrite HG in Hret.
  apply remapFamilies_Returns in Hret as [_ Hch].
  eexists. split.
  { rewrite Hch. cbn [extend ch]. by rewrite app_nil_r. }
  apply Gather_inr in HG as [Hperm _].
  unfold subRegistry in Hperm. cbn [collectors app flat_map] in Hperm.
  rewrite collect_Registered in Hperm.
  by apply Permutation_flat_map.
Qed.

(** ** The probe-success gauge after [Collect] *)

Lemma scrapeTarget_probeSuccess w target w' :
  scrapeTarget quickSort_func Probers w target = Returns w' →
  gauge_value (probeSuccess (exporter w'))
  = lastProbeSuccess Probers (SSLConfig (options (exporter w)))
      (gauge_value (probeSuccess (exporter w))) [target].
Proof.
  intros Hret. unfold lastProbeSuccess. cbn [foldl].
  rewrite (scrapeTarget_Returns_exporter _ _ _ _ _ Hret).
  destruct (resolve Probers _ target) as [entry|[module probeFunc]]; [done|].
  destruct (probeTarget_spec (exporter w) target module probeFunc)
    as (e' & Hpt & _ & _ & _ & _ & _ & _ & _ & _ & _ & Hval & _).
  rewrite Hpt. cbn [fst]. rewrite Hval.
  by destruct (probe_err _).
Qed.

(** The probe-success gauge is one gauge for all targets: when [Collect]
    completes it holds the outcome of the last target that resolved, and
    the value it had before when none did. *)
Theorem Collect_leaves_last_probe_success (e : Exporter) (w' : World) :
  Collect quickSort_func Probers e = Returns w' →
  gauge_value (probeSuccess (exporter w'))
  = lastProbeSuccess Probers (SSLConfig (options e))
      (gauge_value (probeSuccess e)) (SSLTargets (options e)).
Proof.
  unfold Collect.
  cut (∀ targets w,
         forEach (scrapeTarget quickSort_func Probers) w targets = Returns w' →
         gauge_value (probeSuccess (exporter w'))
         = lastProbeSuccess Probers (SSLConfig (options (exporter w)))
             (gauge_value (probeSuccess (exporter w))) targets).
  { intros H. apply H. }
  induction targets as [|target targets IH]; intros w Hret.
  { by injection Hret as <-. }
  cbn [forEach] in Hret.
  destruct (scrapeTarget_exporter w target) as (_ & _ & _ & Hc & _).
  destruct (scrapeTarget quickSort_func Probers w target) as [w1|w1] eqn:Hstep;
    [|discriminate Hret].
  cbn [world_of] in Hc. rewrite (IH w1 Hret), Hc.
  rewrite (scrapeTarget_probeSuccess _ _ _ Hstep). done.
Qed.

End more_properties.

(** * The further properties on the example configuration *)

#[local] Transparent descs labelOrder.

Lemma sort_Slice_small_slices_witness :
  let key := λ a, labelOrder_at (lp_Name a) in
  let x := m_Label metric_with_equal_ranks in
  let sorted := sort_Slice example_quickSort x (λ a b, bool_decide (key a < key b)%Z) in
  sorted ≡ₚ x
  ∧ StronglySorted (λ a b, key a ≤ key b)%Z sorted
  ∧ (length x ≤ 6 →
     ∀ k, filter (λ a, key a = k) sorted = filter (λ a, key a = k) x).
Proof.
  apply (sort_Slice_small_slices example_quickSort
           (λ a, labelOrder_at (lp_Name a)) (m_Label metric_with_equal_ranks)).
  vm_compute. lia.
Defined.

Lemma remapMetric_aligns_label_values_witness :
  let w := initial (NewSSLExporter (example_Options [])) in
  ∃ sorted,
    sorted ≡ₚ example_certLabels
    ∧ lp_Name <$> sorted = certLabels
    ∧ remapMetric example_quickSort (family_named "ssl_cert_not_after") w
        {| m_Label := example_certLabels; m_Gauge := Some 1735689600%float |}
      = Returns (Send w {| cm_desc := NewDesc "ssl_cert_not_after"
                                        "NotAfter expressed as a Unix Epoch Time"
                                        certLabels;
                           cm_valType := GaugeValue; cm_val := 1735689600%float;
                           cm_labelValues := lp_Value <$> sorted |}).
Proof.
  intros w.
  refine (remapMetric_aligns_label_values example_quickSort
            (family_named "ssl_cert_not_after") w
            {| m_Label := example_certLabels; m_Gauge := Some 1735689600%float |}
            (NewDesc "ssl_cert_not_after" "NotAfter expressed as a Unix Epoch Time"
                     certLabels)
            1735689600%float _ _ _).
  - vm_compute. reflexivity.
  - refine (bool_decide_unpack _ _). vm_compute. reflexivity.
  - reflexivity.
Defined.

Lemma target_output_ignores_earlier_registry_witness :
  let wa := world_of (example_Collect [target "a.example:443" "tcp"]) in
  let wb := initial (set_proberType (NewSSLExporter (example_Options [])) "tcp" 1%float) in
  ∃ panics metrics entries ea eb,
    scrapeTarget example_quickSort example_Probers wa (target "b.example:443" "tcp")
    = ends panics (extend (with_exporter wa ea) metrics entries)
    ∧ scrapeTarget example_quickSort example_Probers wb (target "b.example:443" "tcp")
      = ends panics (extend (with_exporter wb eb) metrics entries)
    ∧ reads_alike ea eb.
Proof.
  intros wa wb.
  apply (target_output_ignores_earlier_registry example_quickSort example_Probers
           wa wb (target "b.example:443" "tcp")).
  repeat split; vm_compute; reflexivity.
Defined.

Lemma Collect_repeats_from_second_call_witness :
  let e := NewSSLExporter (example_Options [ target "a.example:443" "tcp";
                                             target "b.example:443" "https" ]) in
  let second := Collect example_quickSort example_Probers
                  (CollectAgain example_quickSort example_Probers 1 e) in
  let later := Collect example_quickSort example_Probers
                 (CollectAgain example_quickSort example_Probers 3 e) in
  ch (world_of later) = ch (world_of second)
  ∧ logged (world_of later) = logged (world_of second)
  ∧ is_panic later = is_panic second.
Proof.
  intros e.
  apply (Collect_repeats_from_second_call example_quickSort example_Probers e 2).
  vm_compute. reflexivity.
Defined.

Lemma Collect_completes_on_gauges_witness :
  ∃ w', example_Collect [ target "a.example:443" "tcp"; target "b.example:443" "https";
                          target "c.example:443" "file"; target "d.example:443" "nope" ]
        = Returns w'.
Proof.
  apply (Collect_completes_on_gauges example_quickSort example_Probers).
  - vm_compute. reflexivity.
  - intros t module probeFunc mf m Hin Hres Hmf Hm.
    cbn [NewSSLExporter options example_Options SSLTargets SSLConfig] in Hin, Hres.
    repeat (apply elem_of_cons in Hin as [->|Hin]);
      [..|by apply elem_of_nil in Hin];
      vm_compute in Hres; try discriminate Hres;
      injection Hres as <- <-;
      repeat (apply elem_of_cons in Hmf as [->|Hmf]);
      try (by apply elem_of_nil in Hmf);
      repeat (apply elem_of_cons in Hm as [->|Hm]);
      try (by apply elem_of_nil in Hm);
      eexists; reflexivity.
Defined.

Lemma Collect_on_unresolved_targets_witness :
  example_Collect [ target "a.example:443" "nope"; target "b.example:443" "";
                    target "c.example:25" "smtp" ]
  = Returns {| exporter := NewSSLExporter
                             (example_Options
                                [ target "a.example:443" "nope";
                                  target "b.example:443" "";
                                  target "c.example:25" "smtp" ]);
               ch := [];
               logged := [ LogUnknownModule "nope"; LogUnknownModule "";
                           LogUnknownProber "smtp" ] |}.
Proof.
  apply (Collect_on_unresolved_targets example_quickSort example_Probers
           (NewSSLExporter (example_Options [ target "a.example:443" "nope";
                                              target "b.example:443" "";
                                              target "c.example:25" "smtp" ]))).
  repeat constructor; eexists; vm_compute; reflexivity.
Defined.

Lemma Gather_error_skips_target_witness :
  let w := initial (NewSSLExporter (example_Options [target "a.example:443" "tcp"])) in
  ∃ w',
    scrapeTarget example_quickSort example_Probers_twice w (target "a.example:443" "tcp")
    = Returns w'
    ∧ ch w' = ch w
    ∧ logged w' = logged w ++ [] ++ [LogError (errCollectedBefore "ssl_cert_not_after")]
    ∧ gauge_value (probeSuccess (exporter w')) = 1%float
    ∧ vec_children (proberType (exporter w'))
      = <["tcp" := 1%float]> (vec_children (proberType (exporter w))).
Proof.
  intros w.
  refine (Gather_error_skips_target example_quickSort example_Probers_twice w
            (target "a.example:443" "tcp") (module_of "tcp") probe_twice
            (errCollectedBefore "ssl_cert_not_after") _ _ _);
    vm_compute; reflexivity.
Defined.

Lemma target_output_is_the_canonical_metrics_witness :
  let w := initial (NewSSLExporter (example_Options [target "a.example:443" "tcp"])) in
  let t := target "a.example:443" "tcp" in
  let w' := world_of (scrapeTarget example_quickSort example_Probers w t) in
  let e' := (probeTarget (exporter w) t (module_of "tcp") probe_ok).1.1 in
  ∃ out,
    ch w' = ch w ++ out
    ∧ out ≡ₚ flat_map (λ mf, omap (canonical example_quickSort mf) (mf_Metric mf))
               (collect e' TheProbeSuccess ++ collect e' TheProberType
                ++ probe_registered (probe_ok "a.example:443" (module_of "tcp"))).
Proof.
  intros w t w'.
  refine (target_output_is_the_canonical_metrics example_quickSort example_Probers
            w t (module_of "tcp") probe_ok
            (match Gather (probeTarget (exporter w) t (module_of "tcp") probe_ok).1.1
                          (probeTarget (exporter w) t (module_of "tcp") probe_ok).1.2 with
             | inr metricFams => metricFams
             | inl _ => []
             end)
            w' _ _ _); vm_compute; reflexivity.
Defined.

Lemma Collect_leaves_last_probe_success_witness :
  let e := NewSSLExporter (example_Options [ target "a.example:443" "tcp";
                                             target "b.example:443" "https" ]) in
  let w' := world_of (Collect example_quickSort example_Probers e) in
  gauge_value (probeSuccess (exporter w'))
  = lastProbeSuccess example_Probers (SSLConfig (options e))
      (gauge_value (probeSuccess e)) (SSLTargets (options e)).
Proof.
  intros e w'.
  refine (Collect_leaves_last_probe_success example_quickSort example_Probers e w' _).
  vm_compute. reflexivity.
Defined.

(** C8, the claim as stated fails: the target of the prober [kubernetes]
    resolves and its probe returns no error, but the prober registered a
    metric that is not a gauge: the body of the loop panics, and the target
    after it, which alone gets three metrics, is not processed. *)
Lemma C8_panic_stops_remaining_targets :
  resolve example_Probers example_Config (target "10.0.0.1:443" "kubernetes")
  = inr (module_of "kubernetes", probe_counter)
  ∧ probe_err (probe_counter "10.0.0.1:443" (module_of "kubernetes")) = None
  ∧ is_panic (example_Collect [ target "10.0.0.1:443" "kubernetes";
                                target "a.example:443" "tcp" ]) = true
  ∧ sent (example_Collect [ target "10.0.0.1:443" "kubernetes";
                            target "a.example:443" "tcp" ]) = []
  ∧ sent (example_Collect [ target "a.example:443" "tcp" ])
    = [ ("ssl_cert_not_after", 1735689600%float,
         ["42"; "Example CA"; "example.com"; ",example.com,"; ""; ""; ""]);
        ("ssl_probe_success", 1%float, []); ("ssl_prober", 1%float, ["tcp"]) ].
Proof. repeat split; vm_compute; reflexivity. Qed.

(** C8, the amended statement at a target whose probe fails, before
    another target. *)
Lemma C8_witness :
  let w := initial (NewSSLExporter (example_Options [ target "example.com:443" "https";
                                                      target "a.example:443" "tcp" ])) in
  ∃ w',
    scrapeTarget example_quickSort example_Probers w (target "example.com:443" "https")
    = Returns w'
    ∧ gauge_value (probeSuccess (exporter w')) = 0%float
    ∧ (∀ err, probe_err (probe_failing "example.com:443" (module_of "https")) = Some err →
              ∃ entries, logged w' = logged w ++ LogError err :: entries)
    ∧ ∀ targets,
        forEach (scrapeTarget example_quickSort example_Probers) w
                (target "example.com:443" "https" :: targets)
        = forEach (scrapeTarget example_quickSort example_Probers) w' targets.
Proof.
  intros w.
  refine (C8_probe_success_follows_probe_error example_quickSort example_Probers
            w (target "example.com:443" "https") (module_of "https") probe_failing
            _ _ _).
  - vm_compute. reflexivity.
  - vm_compute. reflexivity.
  - intros mf m Hmf. by apply elem_of_nil in Hmf.
Defined.

(** * Properties of the usage reporter *)

Lemma reportInterval_eq : reportInterval = 3600000000000%Z.
Proof. reflexivity. Qed.

Lemma maxDuration_eq : maxDuration = 9223372036854775807%Z.
Proof. reflexivity. Qed.

Lemma minDuration_eq : minDuration = (-9223372036854775808)%Z.
Proof. reflexivity. Qed.

(** Below [reportInterval], [Sub] and the difference compare alike. *)
Lemma Time_Sub_lt_reportInterval (t u : Time) :
  (Time_Sub t u < reportInterval)%Z ↔ (t - u < reportInterval)%Z.
Proof.
  unfold Time_Sub. rewrite reportInterval_eq, maxDuration_eq, minDuration_eq.
  repeat case_decide; lia.
Qed.

Section usagestats_properties.
Variable Encode : AgentSeed → usage_error + string.
Variable Decode : string → usage_error + AgentSeed.
Variable nextReport : Duration → Time → Time → Time.

(** ** [init] *)

(** When there is no seed file and it can be written, [init] makes a seed
    and writes it; when the codec decodes what it encoded of that seed,
    every later [init] on these files, of any reporter, reads the same seed
    back and writes nothing. *)
Theorem init_reads_back_its_seed (rep : Reporter) (fs : FileSystem)
    (src : SeedSource) (data : string) :
  let seed := {| UID := uuid_NewString src;
                 PrometheusVersion := build_GetVersion src;
                 CreatedAt := time_Now src |} in
  os_Stat fs agentSeedFileName = Some ErrNotExist →
  readOnly fs = false →
  Encode seed = inr data →
  Decode data = inr seed →
  ∃ fs',
    init Encode Decode rep fs src = (set_agentSeed rep (Some seed), fs', None)
    ∧ files fs' = <[agentSeedFileName := data]> (files fs)
    ∧ ∀ rep' src',
        init Encode Decode rep' fs' src' = (set_agentSeed rep' (Some seed), fs', None).
Proof.
  intros seed Hstat Hro Henc Hdec. unfold os_Stat in Hstat.
  destruct (decide (agentSeedFileName ∈ denied fs)) as [|Hden]; [done|].
  destruct (files fs !! agentSeedFileName) eqn:Hfile; [done|].
  eexists. split; [|split].
  - unfold init, fileExists, os_Stat. rewrite decide_False, Hfile by done.
    cbv zeta. fold seed. unfold writeSeedFile. rewrite Henc.
    unfold ioutil_WriteFile. rewrite decide_False, Hro by done. reflexivity.
  - done.
  - intros rep' src'. unfold init, fileExists, os_Stat. cbn [denied files].
    rewrite decide_False, lookup_insert_eq by done.
    unfold readSeedFile, ioutil_ReadFile. cbn [denied files].
    rewrite decide_False, lookup_insert_eq by done. by rewrite Hdec.
Qed.

(** [init] writes no file but the seed file, and the seed file only when
    [fileExists] says it is missing; it leaves the time of the last report
    and the configuration as they are. *)
Theorem init_touches_only_a_missing_seed_file (rep : Reporter) (fs : FileSystem)
    (src : SeedSource) :
  let rep' := (init Encode Decode rep fs src).1.1 in
  let fs' := (init Encode Decode rep fs src).1.2 in
  denied fs' = denied fs
  ∧ readOnly fs' = readOnly fs
  ∧ (∀ path, path ≠ agentSeedFileName → files fs' !! path = files fs !! path)
  ∧ (fileExists fs agentSeedFileName = true → fs' = fs)
  ∧ lastReport rep' = lastReport rep
  ∧ cfg_EnabledFeatures rep' = cfg_EnabledFeatures rep.
Proof.
  cbv zeta. unfold init.
  destruct (fileExists fs agentSeedFileName).
  { by destruct (readSeedFile Decode fs). }
  unfold writeSeedFile. destruct (Encode _) as [err|data]; [done|].
  unfold ioutil_WriteFile.
  destruct (decide (agentSeedFileName ∈ denied fs)); [done|].
  destruct (readOnly fs) eqn:Hro; [by rewrite ?Hro|].
  cbn. repeat split; try done.
  all: intros path Hpath; by rewrite lookup_insert_ne.
Qed.

(** A seed file that cannot be accessed counts as existing: [init] makes
    no new seed, leaves the files as they are, sets the seed to nil and
    returns the error of reading the file. *)
Theorem init_on_inaccessible_seed_file (rep : Reporter) (fs : FileSystem)
    (src : SeedSource) :
  agentSeedFileName ∈ denied fs →
  fileExists fs agentSeedFileName = true
  ∧ init Encode Decode rep fs src
    = (set_agentSeed rep None, fs, Some (PathError ErrPermission)).
Proof.
  intros Hden.
  assert (Hex : fileExists fs agentSeedFileName = true).
  { unfold fileExists, os_Stat. by rewrite decide_True. }
  split; [done|]. unfold init. rewrite Hex.
  unfold readSeedFile, ioutil_ReadFile. by rewrite decide_True.
Qed.

Lemma init_touches_only_a_missing_seed_file_aux rep fs src :
  lastReport (init Encode Decode rep fs src).1.1 = lastReport rep.
Proof.
  unfold init. destruct (fileExists fs agentSeedFileName).
  - by destruct (readSeedFile Decode fs).
  - by destruct (writeSeedFile Encode fs _).
Qed.

(** When [init] returns no error the seed is set. *)
Lemma init_sets_seed rep fs src rep' fs' :
  init Encode Decode rep fs src = (rep', fs', None) → is_Some (agentSeed rep').
Proof.
  unfold init. destruct (fileExists fs agentSeedFileName).
  - destruct (readSeedFile Decode fs) as [err|seed]; [done|].
    intros [= <- _]. by eexists.
  - destruct (writeSeedFile Encode fs _) as [fs1 err]. intros [= <- _ _]. by eexists.
Qed.

(** ** [reportUsage] *)

Lemma reportUsage_loop_spec send ctxDone fuel n errs log :
  n ≤ MaxRetries → MaxRetries - n < fuel →
  ∃ run,
    reportUsage_loop send ctxDone fuel n errs log = Some run
    ∧ n ≤ run_sends run ∧ run_sends run ≤ MaxRetries
    ∧ (run_sent run = true →
       run_err run = None ∧ n < run_sends run ∧ send (run_sends run - 1) = None)
    ∧ (∀ k, n ≤ k → k < run_sends run - (if run_sent run then 1 else 0) →
            is_Some (send k))
    ∧ (run_sent run = false →
       (run_err run = None ↔ errs = [] ∧ run_sends run = n)
       ∧ (run_sends run = MaxRetries ∨ ctxDone (run_sends run) = true)).
Proof.
  revert n errs log. induction fuel as [|fuel IH]; intros n errs log Hn Hfuel; [lia|].
  cbn [reportUsage_loop]. unfold Ongoing.
  assert (Hstop : ctxDone n = true ∨ n = MaxRetries →
    ∃ run,
      Some {| run_err := MultiError_Err errs; run_sends := n; run_sent := false;
              run_log := log |} = Some run
      ∧ n ≤ run_sends run ∧ run_sends run ≤ MaxRetries
      ∧ (run_sent run = true →
         run_err run = None ∧ n < run_sends run ∧ send (run_sends run - 1) = None)
      ∧ (∀ k, n ≤ k → k < run_sends run - (if run_sent run then 1 else 0) →
              is_Some (send k))
      ∧ (run_sent run = false →
         (run_err run = None ↔ errs = [] ∧ run_sends run = n)
         ∧ (run_sends run = MaxRetries ∨ ctxDone (run_sends run) = true))).
  { intros Hwhy. eexists. split; [reflexivity|]. cbn [run_sends run_sent run_err].
    split; [lia|]. split; [lia|]. split; [done|]. split; [intros k ? ?; lia|].
    intros _. split.
    - split; [by destruct errs|by intros [-> _]].
    - destruct Hwhy as [?|?]; [by right|by left]. }
  destruct (ctxDone n) eqn:Hctx; cbn [negb andb]; [apply Hstop; by left|].
  case_bool_decide as Hlt; [|apply Hstop; right; lia].
  clear Hstop.
  destruct (send n) as [err|] eqn:Hsend.
  - destruct (IH (S n) (errs ++ [err]) (log ++ [LogFailedSend n err]))
      as (run & Hrun & Hlo & Hhi & Hsent & Hfailed & Hnot); [lia|lia|].
    exists run. split; [done|]. split; [lia|]. split; [done|]. split; [|split].
    + intros Hs. destruct (Hsent Hs) as (? & ? & ?). repeat split; [done|lia|done].
    + intros k Hk1 Hk2. destruct (decide (k = n)) as [->|Hne]; [by rewrite Hsend|].
      apply Hfailed; [lia|done].
    + intros Hs. destruct (Hnot Hs) as [Hnil Hend]. split; [|done].
      rewrite Hnil. split.
      * intros [Happ _]. by destruct errs.
      * intros [_ ?]. lia.
  - eexists. split; [reflexivity|]. cbn [run_sends run_sent run_err].
    split; [lia|]. split; [lia|]. split; [|split; [|done]].
    + intros _. split; [done|]. split; [lia|]. by rewrite Nat.sub_succ, Nat.sub_0_r.
    + intros k Hk1 Hk2. lia.
Qed.

(** [reportUsage] returns after at most 5 calls of [sendReport]: the last
    one succeeded, or the context has an error, or all 5 failed. It returns
    no error when a call succeeded, and also when the context had an error
    before the first call: then nothing was sent. *)
Theorem reportUsage_gives_up_after_5_calls (send : nat → option usage_error)
    (ctxDone : nat → bool) :
  ∃ run,
    reportUsage send ctxDone = Some run
    ∧ run_sends run ≤ 5
    ∧ (run_sent run = true →
       run_err run = None ∧ send (run_sends run - 1) = None)
    ∧ (∀ k, k < run_sends run - (if run_sent run then 1 else 0) → is_Some (send k))
    ∧ (run_sent run = false → run_sends run = 5 ∨ ctxDone (run_sends run) = true)
    ∧ (run_err run = None ↔ run_sent run = true ∨ ctxDone 0 = true).
Proof.
  destruct (reportUsage_loop_spec send ctxDone (S MaxRetries) 0 [] [])
    as (run & Hrun & _ & Hhi & Hsent & Hfailed & Hnot); [unfold MaxRetries; lia..|].
  exists run. split; [done|]. split; [done|]. split; [|split; [|split]].
  - intros Hs. by destruct (Hsent Hs) as (? & _ & ?).
  - intros k Hk. apply Hfailed; [lia|done].
  - intros Hs. by destruct (Hnot Hs) as [_ ?].
  - split.
    + intros Hnil. destruct (run_sent run) eqn:Hs; [by left|right].
      destruct (Hnot eq_refl) as [Hiff Hend]. apply Hiff in Hnil as [_ H0].
      rewrite H0 in Hend. by destruct Hend.
    + intros [Hs|Hctx]; [by destruct (Hsent Hs)|].
      unfold reportUsage in Hrun. cbn [reportUsage_loop] in Hrun.
      unfold Ongoing in Hrun. rewrite Hctx in Hrun. cbn in Hrun.
      by injection Hrun as <-.
Qed.

(** ** [Start] *)

Lemma onTick_spec st now send ctxDone :
  ∃ st',
    onTick st now send ctxDone = Some st'
    ∧ cfg_EnabledFeatures (reporter st') = cfg_EnabledFeatures (reporter st)
    ∧ agentSeed (reporter st') = agentSeed (reporter st)
    ∧ ((lastReport (reporter st') = lastReport (reporter st)
        ∧ next st' = next st ∧ reported st' = reported st)
       ∨ (lastReport (reporter st') = next st
          ∧ next st' = Time_Add (next st) reportInterval
          ∧ (reported st' = reported st ++ [next st]
             ∨ reported st' = reported st ∧ ctxDone 0 = true))).
Proof.
  unfold onTick.
  destruct (negb (Time_Equal (next st) now) && _); [eexists; split; [done|]; eauto 10|].
  destruct (reportUsage_gives_up_after_5_calls send ctxDone)
    as (run & -> & _ & Hsent & _ & _ & Hnil).
  destruct (run_err run) as [errs|] eqn:Herr.
  - eexists. split; [done|]. cbn. split; [done|]. split; [done|]. left.
    destruct (run_sent run); [by destruct Hsent|]. by rewrite app_nil_r.
  - eexists. split; [done|]. cbn. split; [done|]. split; [done|]. right.
    split; [done|]. split; [done|].
    destruct (proj1 Hnil eq_refl) as [->|Hctx]; [by left|].
    destruct (run_sent run); [by left|right]. by rewrite app_nil_r.
Qed.

(** On a tick, when [next] is one [reportInterval] after the last report,
    as [Start] sets them, a report is attempted when the time has reached
    [next] and only then (the test [next.Equal(now)] adds nothing); [next]
    stays one interval after the last report. *)
Theorem tick_reports_when_next_is_due (st : Started) (now : Time)
    (send : nat → option usage_error) (ctxDone : nat → bool) :
  lastReport (reporter st) = Time_Add (next st) (- reportInterval)%Z →
  ∃ st',
    onTick st now send ctxDone = Some st'
    ∧ lastReport (reporter st') = Time_Add (next st') (- reportInterval)%Z
    ∧ ((now < next st)%Z → st' = st)
    ∧ ((next st ≤ now)%Z →
       ∃ entries, started_log st' = started_log st ++ LogReporting :: entries).
Proof.
  intros Hinv.
  destruct (onTick_spec st now send ctxDone) as (st' & Hst' & _ & _ & Hcases).
  exists st'. split; [done|]. split; [|split].
  - unfold Time_Add in *.
    destruct Hcases as [(-> & -> & _)|(-> & -> & _)]; [done|lia].
  - intros Hearly. unfold onTick in Hst'.
    rewrite andb_true_intro in Hst'; [by injection Hst' as <-|].
    split.
    + unfold Time_Equal. rewrite bool_decide_eq_false_2; [done|lia].
    + apply bool_decide_eq_true_2, Time_Sub_lt_reportInterval.
      rewrite Hinv. unfold Time_Add. lia.
  - intros Hdue. unfold onTick in Hst'.
    assert (Hno : bool_decide (Time_Sub now (lastReport (reporter st)) < reportInterval)%Z
                  = false).
    { apply bool_decide_eq_false_2. rewrite Time_Sub_lt_reportInterval.
      rewrite Hinv. unfold Time_Add. lia. }
    rewrite Hno, andb_false_r in Hst'.
    destruct (reportUsage send ctxDone) as [run|]; [|done].
    destruct (run_err run); injection Hst' as <-; cbn [started_log];
      rewrite <-app_assoc; eauto.
Qed.

Lemma Start_loop_spec st events :
  let st' := (Start_loop st events).1 in
  let res := (Start_loop st events).2 in
  (res = StartWaits ∨ ∃ err, res = StartReturns err)
  ∧ (lastReport (reporter st) = Time_Add (next st) (- reportInterval)%Z →
     lastReport (reporter st') = Time_Add (next st') (- reportInterval)%Z)
  ∧ agentSeed (reporter st') = agentSeed (reporter st)
  ∧ cfg_EnabledFeatures (reporter st') = cfg_EnabledFeatures (reporter st).
Proof.
  cbv zeta. revert st. induction events as [|[now send ctxDone|err] events IH]; intros st.
  - cbn. eauto.
  - cbn [Start_loop].
    destruct (onTick_spec st now send ctxDone) as (st' & Hst' & Hcfg & Hseed & Hcases).
    rewrite Hst'. destruct (IH st') as (Hres & Hinv & Hseed' & Hcfg').
    split; [done|]. split; [|by rewrite Hseed', Hcfg'].
    intros H. apply Hinv. unfold Time_Add in *.
    destruct Hcases as [(-> & -> & _)|(-> & -> & _)]; [done|lia].
  - cbn. eauto 6.
Qed.

(** [Start] on a new reporter returns with the error of [init] or of the
    context, or is still waiting for a tick: it does not dereference a nil
    seed. And once in its loop, [next] is one [reportInterval] after the
    last report, and a whole number of intervals after the [next] it began
    with. *)
Theorem Start_keeps_next_one_interval_ahead (enabledFeatures : list string)
    (fs : FileSystem) (src : SeedSource) (now : Time) (events : list Event) :
  let started := Start Encode Decode nextReport (NewReporter enabledFeatures)
                   fs src now events in
  let st := started.1.1 in
  let res := started.2 in
  (res = StartWaits ∨ ∃ err, res = StartReturns err)
  ∧ (∀ err, (init Encode Decode (NewReporter enabledFeatures) fs src).2 = Some err →
            res = StartReturns err ∧ reported st = [])
  ∧ ((init Encode Decode (NewReporter enabledFeatures) fs src).2 = None →
     lastReport (reporter st) = Time_Add (next st) (- reportInterval)%Z).
Proof.
  cbv zeta. unfold Start.
  destruct (init Encode Decode (NewReporter enabledFeatures) fs src)
    as [[rep fs'] [err|]] eqn:Hinit; cbn [fst snd].
  { split; [eauto|]. split; [|done]. by intros ? [= <-]. }
  destruct (init_sets_seed _ _ _ _ _ Hinit) as [seed Hseed]. rewrite Hseed.
  assert (Hlast : lastReport rep = 0%Z).
  { pose proof (init_touches_only_a_missing_seed_file_aux (NewReporter enabledFeatures)
                  fs src) as H. rewrite Hinit in H. exact H. }
  rewrite Hlast. unfold Time_IsZero. rewrite bool_decide_eq_true_2 by done.
  set (st0 := {| reporter := _ |}).
  destruct (Start_loop_spec st0 events) as (Hres & Hinv & _).
  destruct (Start_loop st0 events) as [st res]. cbn [fst snd] in *.
  split; [done|]. split; [done|]. intros _. by apply Hinv.
Qed.

(** While the context has no error when a report begins, the reports sent
    are those of consecutive intervals from the [next] the loop began with:
    none is skipped and none is sent twice. *)
Theorem reports_are_of_consecutive_intervals (st : Started) (events : list Event) :
  Forall (λ event, match event with
                   | Tick _ _ ctxDone => ctxDone 0 = false
                   | Done _ => True
                   end) events →
  let st' := (Start_loop st events).1 in
  ∃ m,
    reported st'
    = reported st ++ map (λ k, next st + Z.of_nat k * reportInterval)%Z (seq 0 m)
    ∧ next st' = (next st + Z.of_nat m * reportInterval)%Z.
Proof.
  cbv zeta. revert st. induction events as [|[now send ctxDone|err] events IH];
    intros st Hall.
  - exists 0. cbn. split; [by rewrite app_nil_r|lia].
  - apply Forall_cons in Hall as [Hctx Hall]. cbn [Start_loop].
    destruct (onTick_spec st now send ctxDone) as (st' & Hst' & _ & _ & Hcases).
    rewrite Hst'. destruct (IH st' Hall) as (m & Hrep & Hnext).
    destruct Hcases as [(_ & Hn & Hr)|(_ & Hn & [Hr|[_ Hbad]])].
    + exists m. by rewrite Hrep, Hnext, Hn, Hr.
    + exists (S m). rewrite Hrep, Hnext, Hn, Hr. unfold Time_Add.
      split; [|lia]. rewrite <-app_assoc. f_equal.
      cbn [seq map app]. f_equal; [lia|].
      rewrite <-seq_shift, map_map. apply map_ext. intros k. lia.
    + by rewrite Hctx in Hbad.
  - exists 0. cbn. split; [by rewrite app_nil_r|lia].
Qed.

End usagestats_properties.

(** * The reporter in the example surroundings *)

Lemma init_reads_back_its_seed_witness :
  let seed := {| UID := "5f0c1b1e-5d3a-4a0e-9c57-2f1f0e1d7a11";
                 PrometheusVersion := "2.35.0";
                 CreatedAt := 63786000000000000000%Z |} in
  ∃ fs',
    init example_Encode example_Decode (NewReporter ["integrations-next"])
         empty_FileSystem example_SeedSource
    = (set_agentSeed (NewReporter ["integrations-next"]) (Some seed), fs', None)
    ∧ files fs'
      = <[agentSeedFileName :=
            "5f0c1b1e-5d3a-4a0e-9c57-2f1f0e1d7a11,2.35.0,63786000000000000000"]>
          (files empty_FileSystem)
    ∧ ∀ rep' src',
        init example_Encode example_Decode rep' fs' src'
        = (set_agentSeed rep' (Some seed), fs', None).
Proof.
  intros seed.
  refine (init_reads_back_its_seed example_Encode example_Decode
            (NewReporter ["integrations-next"]) empty_FileSystem example_SeedSource
            "5f0c1b1e-5d3a-4a0e-9c57-2f1f0e1d7a11,2.35.0,63786000000000000000"
            _ _ _ _); vm_compute; reflexivity.
Defined.

Lemma init_on_inaccessible_seed_file_witness :
  let fs := {| files := ∅; denied := {[ agentSeedFileName ]}; readOnly := false |} in
  fileExists fs agentSeedFileName = true
  ∧ init example_Encode example_Decode (NewReporter []) fs example_SeedSource
    = (set_agentSeed (NewReporter []) None, fs, Some (PathError ErrPermission)).
Proof.
  intros fs.
  apply (init_on_inaccessible_seed_file example_Encode example_Decode
           (NewReporter []) fs example_SeedSource).
  vm_compute. reflexivity.
Defined.

Lemma tick_reports_when_next_is_due_witness :
  let st := {| reporter := set_lastReport (NewReporter []) 63786003600000000000%Z;
               next := 63786007200000000000%Z; reported := [];
               started_log := [LogRunning] |} in
  ∃ st',
    onTick st 63786007260000000000%Z always_sent context_live = Some st'
    ∧ lastReport (reporter st') = Time_Add (next st') (- reportInterval)%Z
    ∧ ((63786007260000000000 < next st)%Z → st' = st)
    ∧ ((next st ≤ 63786007260000000000)%Z →
       ∃ entries, started_log st' = started_log st ++ LogReporting :: entries).
Proof.
  intros st.
  apply (tick_reports_when_next_is_due st 63786007260000000000%Z always_sent context_live).
  vm_compute. reflexivity.
Defined.

Lemma reports_are_of_consecutive_intervals_witness :
  let st := {| reporter := set_lastReport (NewReporter []) 63786003600000000000%Z;
               next := 63786007200000000000%Z; reported := [];
               started_log := [LogRunning] |} in
  let events := [ Tick 63786007140000000000%Z always_sent context_live;
                  Tick 63786007200000000000%Z never_sent context_live;
                  Tick 63786007260000000000%Z always_sent context_live;
                  Tick 63786010860000000000%Z always_sent context_live;
                  Done (ContextError "context canceled") ] in
  let st' := (Start_loop st events).1 in
  ∃ m,
    reported st'
    = reported st ++ map (λ k, next st + Z.of_nat k * reportInterval)%Z (seq 0 m)
    ∧ next st' = (next st + Z.of_nat m * reportInterval)%Z.
Proof.
  intros st events.
  apply (reports_are_of_consecutive_intervals st events).
  repeat constructor.
Defined.
